(** * Patch features: contrast normalisation and ZCA whitening

    A shallow embedding of the two numerical routines of the notebook
    [py_tutorials/3_2_patch_features.ipynb], [contrast_normalize] and
    [ZCA_whiten], together with the properties claimed for them, and of
    the rest of the notebook's own code: the whitening statement that
    follows [ZCA_whiten], the auto-encoder criterion ([logistic],
    [squared_distance], [training_criterion]) and [show_flat_rgb].

    Conventions of the embedding.
    - A numpy array is a [shape] and a flat, row-major [data] buffer.
    - Array entries are real numbers: the rounding of float64 arithmetic is
      not modelled, and the order in which numpy adds the terms of a sum is
      therefore irrelevant.  Division and square root are the total
      functions of the standard library; every theorem that depends on a
      quotient either holds for every divisor or states where the divisor
      is positive.  The theorems of this development that equate or
      compare computed values are theorems of exact arithmetic; what the
      program computes in float64 at the same places is evaluated with the
      module [Binary64], which repeats the embedding over the binary64
      numbers of the kernel.
    - A Python call yields the list of diagnostics it emitted (figures,
      plots, prints) and then either an exception or a value.
    - The notebook's ambient hyper-parameters [remove_mean], [hard_beta],
      [beta], [gamma] are passed as one record.
    - [numpy.linalg.eigh] is an external routine: it is a parameter. *)

From Stdlib Require Import String.
From Stdlib Require Import Reals List Lia Lra Psatz Bool Arith PeanoNat.
From Stdlib Require PrimFloat FloatOps SpecFloat.
Import ListNotations.
Local Open Scope R_scope.

(* ================================================================== *)
(** ** Arrays *)

Record ndarray : Type := mk_ndarray { shape : list nat; data : list R }.

Definition ndim (a : ndarray) : nat := length (shape a).

Definition size_of (sh : list nat) : nat := fold_right Nat.mul 1%nat sh.

(** The buffer holds exactly as many entries as the shape announces. *)
Definition well_formed (a : ndarray) : Prop :=
  length (data a) = size_of (shape a).

(** [a.shape[k]] *)
Definition dim (a : ndarray) (k : nat) : nat := nth k (shape a) 0%nat.

(** [a[i]] of a vector and [a[i, j]] of a matrix. *)
Definition get1 (a : ndarray) (i : nat) : R := nth i (data a) 0.
Definition get2 (a : ndarray) (i j : nat) : R :=
  nth (i * dim a 1 + j) (data a) 0.

(** Arrays built entry by entry. *)
Definition tab1 (n : nat) (f : nat -> R) : ndarray :=
  {| shape := [n]; data := map f (seq 0 n) |}.

Definition tab2 (n d : nat) (f : nat -> nat -> R) : ndarray :=
  {| shape := [n; d];
     data := flat_map (fun i => map (f i) (seq 0 d)) (seq 0 n) |}.

(** [sum_{k < n} f k] *)
Fixpoint rsum (n : nat) (f : nat -> R) : R :=
  match n with
  | O => 0
  | S k => rsum k f + f k
  end.

(* ================================================================== *)
(** ** Python calls: diagnostics, exceptions, results *)

Inductive exn : Type :=
| TypeError (msg : string)
| IndexError
| ValueError
| AssertionError.

Inductive event : Type :=
| Figure
| Title (s : string)
| Hist (v : list R)
| Plot (v : list R)
| Print (s : string) (sh : option (list nat)).

Definition py (A : Type) : Type := (list event * (exn + A))%type.

Definition ret {A} (a : A) : py A := ([], inr a).
Definition raise {A} (e : exn) : py A := ([], inl e).
Definition emit (ev : event) : py unit := ([ev], inr tt).

Definition bind {A B} (m : py A) (k : A -> py B) : py B :=
  match m with
  | (t, inl e) => (t, inl e)
  | (t, inr a) => let (t', r) := k a in (t ++ t', r)
  end.

Notation "x <- m ;; k" := (bind m (fun x => k))
  (at level 61, m at next level, right associativity).
Notation "m ;;; k" := (bind m (fun _ => k))
  (at level 61, right associativity).

Definition assert (b : bool) : py unit :=
  if b then ret tt else raise AssertionError.

(** The diagnostics and the outcome of a call. *)
Definition trace {A} (m : py A) : list event := fst m.
Definition outcome {A} (m : py A) : exn + A := snd m.

(* ================================================================== *)
(** ** The numpy operations the notebook uses *)

(** [X.mean(1)] of an N x D matrix: the mean of each row. *)
Definition mean_axis1 (X : ndarray) : ndarray :=
  tab1 (dim X 0) (fun i => rsum (dim X 1) (get2 X i) / INR (dim X 1)).

(** [X[:, 0]]: the first column; an [IndexError] when there is none. *)
Definition column0 (X : ndarray) : py ndarray :=
  if (dim X 1 =? 0)%nat then raise IndexError
  else ret (tab1 (dim X 0) (fun i => get2 X i 0)).

(** [v * c], [v + c], [np.maximum(v, c)], [np.sqrt(v)] on a vector. *)
Definition mul_scalar1 (v : ndarray) (c : R) : ndarray :=
  tab1 (dim v 0) (fun i => get1 v i * c).
Definition add_scalar1 (v : ndarray) (c : R) : ndarray :=
  tab1 (dim v 0) (fun i => get1 v i + c).
Definition maximum1 (v : ndarray) (c : R) : ndarray :=
  tab1 (dim v 0) (fun i => Rmax (get1 v i) c).
Definition sqrt1 (v : ndarray) : ndarray :=
  tab1 (dim v 0) (fun i => sqrt (get1 v i)).

(** [X - v[:, None]] and [X / v[:, None]]: [v] is broadcast along the rows,
    entry [i] of [v] meets every entry of row [i] of [X]. *)
Definition sub_col (X v : ndarray) : ndarray :=
  tab2 (dim X 0) (dim X 1) (fun i j => get2 X i j - get1 v i).
Definition div_col (X v : ndarray) : ndarray :=
  tab2 (dim X 0) (dim X 1) (fun i j => get2 X i j / get1 v i).

(** [A * B], entry by entry, for two matrices of one shape. *)
Definition mul2 (A B : ndarray) : ndarray :=
  tab2 (dim A 0) (dim A 1) (fun i j => get2 A i j * get2 B i j).

(** [A.sum(axis=1)] *)
Definition sum_axis1 (A : ndarray) : ndarray :=
  tab1 (dim A 0) (fun i => rsum (dim A 1) (get2 A i)).

(* ================================================================== *)
(** ** Hyper-parameters *)

Record hyper : Type := mk_hyper {
  remove_mean : bool;
  hard_beta : bool;
  beta : R;
  gamma : R
}.

(** The values the notebook assigns. *)
Definition notebook_hyper : hyper :=
  {| remove_mean := true; hard_beta := true; beta := 10; gamma := 1 / 100 |}.

(* ================================================================== *)
(** ** contrast_normalize *)

(** The per-patch mean [xm] of the first branch of [contrast_normalize]. *)
Definition patch_means (h : hyper) (X : ndarray) : py ndarray :=
  if remove_mean h then ret (mean_axis1 X)
  else (c <- column0 X ;; ret (mul_scalar1 c 0)).

(** [div2]: the squared denominators. *)
Definition denominators (h : hyper) (l2 : ndarray) : ndarray :=
  if hard_beta h then maximum1 l2 (beta h) else add_scalar1 l2 (beta h).

Definition contrast_normalize (h : hyper) (patches : ndarray) : py ndarray :=
  let X := patches in
  if negb (ndim X =? 2)%nat
  then raise (TypeError "contrast_normalize requires flat patches")
  else
    xm <- patch_means h X ;;
    let Xc := sub_col X xm in
    let l2 := sum_axis1 (mul2 Xc Xc) in
    emit Figure ;;;
    emit (Title "l2 of image patches") ;;;
    emit (Hist (data l2)) ;;;
    let div2 := denominators h l2 in
    let X := div_col Xc (sqrt1 div2) in
    ret X.

(* ================================================================== *)
(** ** ZCA_whiten *)

(** [len(a)]: the first dimension; a 0-d array has no length. *)
Definition len (a : ndarray) : py nat :=
  match shape a with
  | [] => raise (TypeError "len() of unsized object")
  | n :: _ => ret n
  end.

(** [a.reshape(n, -1)]: the buffer is kept, the second dimension is
    inferred; numpy refuses to infer it when [n] is 0 or does not divide
    the size. *)
Definition reshape_rows (a : ndarray) (n : nat) : py ndarray :=
  let size := size_of (shape a) in
  if (n =? 0)%nat then raise ValueError
  else if negb (size mod n =? 0)%nat then raise ValueError
  else ret {| shape := [n; (size / n)%nat]; data := data a |}.

(** [.astype('float64')]: entries are reals already. *)
Definition astype_float64 (a : ndarray) : ndarray := a.

(** Modelled from the spec: [util.mean_and_std] is imported by the notebook
    but is not part of the sources at hand.  Section 4.2, step 2:
    "Compute the feature-wise mean vector M (length D) across the N
    patches."  Only the first component of the pair it returns is used by
    [ZCA_whiten] (the second is bound to [_std] and dropped); only that
    component is modelled. *)
Definition mean_and_std (X : ndarray) : ndarray :=
  tab1 (dim X 1)
       (fun j => rsum (dim X 0) (fun i => get2 X i j) / INR (dim X 0)).

(** [X - M]: a vector of length D broadcast over the rows of an N x D
    matrix. *)
Definition sub_row (X M : ndarray) : ndarray :=
  tab2 (dim X 0) (dim X 1) (fun i j => get2 X i j - get1 M j).

(** [w * V]: likewise, entry [j] of [w] scales column [j] of [V]. *)
Definition mul_row (w V : ndarray) : ndarray :=
  tab2 (dim V 0) (dim V 1) (fun i j => get1 w j * get2 V i j).

(** [A.T] *)
Definition transpose (A : ndarray) : ndarray :=
  tab2 (dim A 1) (dim A 0) (fun i j => get2 A j i).

(** [np.dot(A, B)] for matrices whose inner dimensions agree. *)
Definition dot (A B : ndarray) : ndarray :=
  tab2 (dim A 0) (dim B 1)
       (fun i j => rsum (dim A 1) (fun k => get2 A i k * get2 B k j)).

(** [A / c] and [c / v] *)
Definition div_scalar2 (A : ndarray) (c : R) : ndarray :=
  tab2 (dim A 0) (dim A 1) (fun i j => get2 A i j / c).
Definition rdiv_scalar1 (c : R) (v : ndarray) : ndarray :=
  tab1 (dim v 0) (fun i => c / get1 v i).

Fixpoint shape_eqb (s t : list nat) : bool :=
  match s, t with
  | [], [] => true
  | a :: s', b :: t' => (a =? b)%nat && shape_eqb s' t'
  | _, _ => false
  end.

(** The external symmetric eigensolver behind [np.linalg.eigh]: from the
    order d and the entries of a d x d matrix, the entries of the vector of
    eigenvalues and of the matrix whose columns are the eigenvectors. *)
Definition eigensolver : Type :=
  nat -> (nat -> nat -> R) -> (nat -> R) * (nat -> nat -> R).

(** [np.linalg.eigh(C)]: a vector of length d and a d x d matrix. *)
Definition eigh (solver : eigensolver) (C : ndarray) : ndarray * ndarray :=
  let d := dim C 0 in
  let (w, V) := solver d (get2 C) in
  (tab1 d w, tab2 d d V).

(** A Python tuple of arrays is the list of its components. *)
Definition ZCA_whiten (solver : eigensolver) (h : hyper) (patches : ndarray)
  : py (list ndarray) :=
  n <- len patches ;;
  X <- reshape_rows patches n ;;
  let X := astype_float64 X in
  X <- contrast_normalize h X ;;
  emit (Print "patch_whitening_filterbank_X starting ZCA" None) ;;;
  let M := mean_and_std X in
  let Xm := sub_row X M in
  assert (shape_eqb (shape Xm) (shape X)) ;;;
  emit (Print "patch_whitening_filterbank_X starting ZCA: dot"
              (Some (shape Xm))) ;;;
  let C := div_scalar2 (dot (transpose Xm) Xm) (INR (dim Xm 0 - 1)) in
  emit (Print "patch_whitening_filterbank_X starting ZCA: eigh" None) ;;;
  let (D, V) := eigh solver C in
  emit Figure ;;;
  emit (Plot (data D)) ;;;
  emit (Title "Eigenspectrum of image patches") ;;;
  emit (Print "patch_whitening_filterbank_X starting ZCA: dot"
              (Some (shape V))) ;;;
  let P := dot (mul_row (sqrt1 (rdiv_scalar1 1 (add_scalar1 D (gamma h)))) V)
               (transpose V) in
  assert (ndim M =? 1)%nat ;;;
  ret [M; P; X].

(* ================================================================== *)
(** ** The quantities the specification names *)

(** Section 4.1, steps 2 to 6, entry by entry. *)
Definition row_mean (h : hyper) (X : ndarray) (i : nat) : R :=
  if remove_mean h then rsum (dim X 1) (get2 X i) / INR (dim X 1) else 0.

Definition centered (h : hyper) (X : ndarray) (i j : nat) : R :=
  get2 X i j - row_mean h X i.

Definition norm2 (h : hyper) (X : ndarray) (i : nat) : R :=
  rsum (dim X 1) (fun j => centered h X i j * centered h X i j).

Definition denominator (h : hyper) (X : ndarray) (i : nat) : R :=
  if hard_beta h then Rmax (norm2 h X i) (beta h) else norm2 h X i + beta h.

Definition normalize_spec (h : hyper) (X : ndarray) : ndarray :=
  tab2 (dim X 0) (dim X 1)
       (fun i j => centered h X i j / sqrt (denominator h X i)).

(** The squared L2 norm of row [i] of a matrix. *)
Definition row_norm2 (Y : ndarray) (i : nat) : R :=
  rsum (dim Y 1) (fun j => get2 Y i j * get2 Y i j).

(** Section 4.2, steps 3 and 4: the sample covariance of a batch. *)
Definition covariance (X : ndarray) : ndarray :=
  let Xc := sub_row X (mean_and_std X) in
  div_scalar2 (dot (transpose Xc) Xc) (INR (dim X 0 - 1)).

(** Section 4.2, steps 6 and 7: V . diag(1 / sqrt(lambda + gamma)) . V^T *)
Definition diag (w : ndarray) : ndarray :=
  tab2 (dim w 0) (dim w 0) (fun i j => if (i =? j)%nat then get1 w i else 0).

Definition whitening_spec (g : R) (lam V : ndarray) : ndarray :=
  dot (dot V (diag (tab1 (dim lam 0) (fun k => 1 / sqrt (get1 lam k + g)))))
      (transpose V).

Definition identity (d : nat) : ndarray :=
  tab2 d d (fun i j => if (i =? j)%nat then 1 else 0).

Definition scale2 (c : R) (A : ndarray) : ndarray :=
  tab2 (dim A 0) (dim A 1) (fun i j => c * get2 A i j).

(** What [np.linalg.eigh] promises about its result for a symmetric [C]:
    the matrix [V] of eigenvectors is orthogonal and [C V = V diag(w)]. *)
Definition eigen_decomposition (C : ndarray) (wV : ndarray * ndarray) : Prop :=
  let (w, V) := wV in
  dot (transpose V) V = identity (dim C 0) /\
  dot V (transpose V) = identity (dim C 0) /\
  dot C V = mul_row w V.

(** The whitening matrix as [ZCA_whiten] computes it from the result
    [(D, V)] of the eigensolver. *)
Definition whitening_matrix (g : R) (D V : ndarray) : ndarray :=
  dot (mul_row (sqrt1 (rdiv_scalar1 1 (add_scalar1 D g))) V) (transpose V).

(** [patches.reshape(len(patches), -1)] of an array with at least one
    patch: N rows, and as many columns as one patch has entries. *)
Definition flat_batch (patches : ndarray) (n : nat) (rest : list nat)
  : ndarray :=
  {| shape := [n; size_of rest]; data := data patches |}.

(* ================================================================== *)
(** ** The whitening of the patches *)

(** The two statements of the notebook that follow the definition of
    [ZCA_whiten]:
    [ZCA_M, ZCA_P, ZCA_X = ZCA_whiten(x_patches_flat)] and
    [x_white_flat = dot(ZCA_X - ZCA_M, ZCA_P)].
    Unpacking a tuple that does not hold three values raises
    [ValueError]. *)
Definition x_white_flat (solver : eigensolver) (h : hyper)
           (x_patches_flat : ndarray) : py ndarray :=
  r <- ZCA_whiten solver h x_patches_flat ;;
  match r with
  | [ZCA_M; ZCA_P; ZCA_X] => ret (dot (sub_row ZCA_X ZCA_M) ZCA_P)
  | _ => raise ValueError
  end.

(* ================================================================== *)
(** ** The auto-encoder and the display of the patches *)

(** [logistic(u)]: [1.0 / (1.0 + exp(-u))], on a float and, entry by
    entry, on an array of any shape. *)
Definition logistic_scalar (u : R) : R := 1 / (1 + exp (- u)).

Definition logistic (u : ndarray) : ndarray :=
  {| shape := shape u; data := map logistic_scalar (data u) |}.

(** [x - z] and [u ** 2] for matrices of one shape. *)
Definition sub2 (A B : ndarray) : ndarray :=
  tab2 (dim A 0) (dim A 1) (fun i j => get2 A i j - get2 B i j).
Definition square2 (A : ndarray) : ndarray :=
  tab2 (dim A 0) (dim A 1) (fun i j => get2 A i j ^ 2).

Definition squared_distance (x z : ndarray) : ndarray :=
  sum_axis1 (square2 (sub2 x z)).

(** [A + b]: a vector broadcast over the rows of a matrix. *)
Definition add_row (A b : ndarray) : ndarray :=
  tab2 (dim A 0) (dim A 1) (fun i j => get2 A i j + get1 b j).

(** [v.mean()] of a vector. *)
Definition mean1 (v : ndarray) : R := rsum (dim v 0) (get1 v) / INR (dim v 0).

Definition training_criterion (W b c x : ndarray) : R :=
  let h := logistic (add_row (dot x W) b) in
  let z := logistic (add_row (dot h (transpose W)) c) in
  mean1 (squared_distance x z).

(** [X[:, a:b]] for bounds that are not negative: the bounds are clipped
    to the number of columns, and a slice that would end before it starts
    is empty. *)
Definition col_slice (X : ndarray) (a b : nat) : ndarray :=
  let start := Nat.min a (dim X 1) in
  let stop := Nat.min b (dim X 1) in
  tab2 (dim X 0) (stop - start) (fun i j => get2 X i (start + j)).

(** [show_flat_rgb(X, grid_shp)], for the ambient [patch_H] and
    [patch_W]: the arguments it hands to the external [show_filters] (the
    fourth channel is [None]). *)
Definition show_flat_rgb (patch_H patch_W : nat) (X : ndarray)
           (grid_shp : nat * nat)
  : (ndarray * ndarray * ndarray) * (nat * nat) * (nat * nat) :=
  let K := (patch_W * patch_H)%nat in
  ((col_slice X 0 K, col_slice X K (2 * K), col_slice X (2 * K) (dim X 1)),
   (patch_H, patch_W), grid_shp).

(* ================================================================== *)
(** ** Sample inputs *)

(** Hard and soft thresholding at [beta = 1], the mean kept. *)
Definition hyper_hard : hyper :=
  {| remove_mean := false; hard_beta := true; beta := 1; gamma := 1 |}.
Definition hyper_soft : hyper :=
  {| remove_mean := false; hard_beta := false; beta := 1; gamma := 1 |}.

(** Soft thresholding with no regularisation at all. *)
Definition hyper_soft0 : hyper :=
  {| remove_mean := false; hard_beta := false; beta := 0; gamma := 1 |}.

(** One patch [(3, 4)], of squared norm 25. *)
Definition patch_3_4 : ndarray := {| shape := [1; 2]%nat; data := [3; 4] |}.

(** One patch [(0, 0)]. *)
Definition patch_0_0 : ndarray := {| shape := [1; 2]%nat; data := [0; 0] |}.

(** The per-patch means of [patch_0_0] when the mean is kept:
    [X[:, 0] * 0]. *)
Definition means_0_0 : ndarray := {| shape := [1]%nat; data := [0 * 0] |}.

(** One patch with no feature at all: an array of shape (1, 0). *)
Definition patch_no_feature : ndarray :=
  {| shape := [1; 0]%nat; data := [] |}.

(** A vector: not a batch of flat patches. *)
Definition vector_3 : ndarray := {| shape := [3]%nat; data := [1; 2; 3] |}.

(** Three patches of one feature, [1], [-1] and [0]. *)
Definition patches_unit : ndarray :=
  {| shape := [3; 1]%nat; data := [1; -1; 0] |}.

(** An eigensolver that is right on diagonal matrices: the eigenvalues are
    the diagonal entries and the eigenvectors the canonical basis. *)
Definition diagonal_solver : eigensolver :=
  fun _ C => (fun k => C k k, fun i j => if (i =? j)%nat then 1 else 0).

(** The whitening matrix that [diagonal_solver] yields for
    [patches_unit] at [gamma = 1]. *)
Definition whitening_unit : ndarray :=
  whitening_matrix 1
    (fst (eigh diagonal_solver (covariance patches_unit)))
    (snd (eigh diagonal_solver (covariance patches_unit))).

(** Hard thresholding at [beta = 1] with the mean removed. *)
Definition hyper_mean : hyper :=
  {| remove_mean := true; hard_beta := true; beta := 1; gamma := 1 |}.

(** An auto-encoder with one hidden unit and all parameters at zero, for
    patches of two entries. *)
Definition W_zero : ndarray := {| shape := [2; 1]%nat; data := [0; 0] |}.
Definition b_zero : ndarray := {| shape := [1]%nat; data := [0] |}.
Definition c_zero : ndarray := {| shape := [2]%nat; data := [0; 0] |}.

(** One patch of a single pixel with its three colour channels. *)
Definition pixel_rgb : ndarray := {| shape := [1; 3]%nat; data := [1; 2; 3] |}.

(** Two batches of two patches that share their first patch. *)
Definition pair_a : ndarray :=
  {| shape := [2; 2]%nat; data := [3; 4; 0; 0] |}.
Definition pair_b : ndarray :=
  {| shape := [2; 2]%nat; data := [3; 4; 5; 6] |}.

(** The configuration [h] with its thresholding rule and its [beta]
    replaced. *)
Definition with_beta (h : hyper) (hard : bool) (b : R) : hyper :=
  {| remove_mean := remove_mean h; hard_beta := hard;
     beta := b; gamma := gamma h |}.

(** Four patches along the orthogonal directions (3/5, 4/5) and
    (-4/5, 3/5), of norms 1 and 1/2. *)
Definition rotation_batch : ndarray :=
  {| shape := [4; 2]%nat;
     data := [3 / 5; 4 / 5; - (3 / 5); - (4 / 5);
              - (2 / 5); 3 / 10; 2 / 5; - (3 / 10)] |}.

(** The eigensolver that is right on the covariance of [rotation_batch]:
    eigenvalues 1/6 and 2/3, in the ascending order of [eigh], with the
    eigenvectors (-4/5, 3/5) and (3/5, 4/5) as columns. *)
Definition rotation_solver : eigensolver :=
  fun _ _ =>
    (fun k => match k with O => 1 / 6 | _ => 2 / 3 end,
     fun i j => match i, j with
                | O, O => - (4 / 5)
                | O, _ => 3 / 5
                | _, O => 3 / 5
                | _, _ => 4 / 5
                end).

Definition whitening_rotation : ndarray :=
  whitening_matrix 1
    (fst (eigh rotation_solver (covariance rotation_batch)))
    (snd (eigh rotation_solver (covariance rotation_batch))).

(** Nine patches: four of norm 2 along the axes and five null ones; the
    sample covariance of the batch is the identity.  Under hard
    thresholding at [beta = 1] it is normalised to [cross_unit]. *)
Definition cross_batch : ndarray :=
  {| shape := [9; 2]%nat;
     data := [2; 0; - 2; 0; 0; 2; 0; - 2;
              0; 0; 0; 0; 0; 0; 0; 0; 0; 0] |}.
Definition cross_unit : ndarray :=
  {| shape := [9; 2]%nat;
     data := [1; 0; - 1; 0; 0; 1; 0; - 1;
              0; 0; 0; 0; 0; 0; 0; 0; 0; 0] |}.

Definition whitening_cross : ndarray :=
  whitening_matrix 1
    (fst (eigh diagonal_solver (covariance cross_unit)))
    (snd (eigh diagonal_solver (covariance cross_unit))).

(* ================================================================== *)
(** ** The same code in binary64 arithmetic *)

(** The notebook computes in float64.  This module repeats the embedding
    of [contrast_normalize] and [ZCA_whiten] with the binary64 operations
    of the kernel in place of those of [R]: every sum, product, quotient
    and square root is rounded as IEEE 754 prescribes, and overflow,
    underflow and nan behave as they do in numpy.  Sums are accumulated
    from left to right, one rounding per addition, which is the order of
    numpy on rows of fewer than eight entries; the sign of a zero sum is
    not tracked.  The definitions run: the values that the exact
    arithmetic of the main development cannot show are computed with
    them. *)
Module Binary64.
Import PrimFloat.
Local Open Scope float_scope.

Record ndarray : Type := mk_ndarray { shape : list nat; data : list float }.

Definition ndim (a : ndarray) : nat := length (shape a).
Definition dim (a : ndarray) (k : nat) : nat := nth k (shape a) 0%nat.
Definition get1 (a : ndarray) (i : nat) : float := nth i (data a) 0.
Definition get2 (a : ndarray) (i j : nat) : float :=
  nth (i * dim a 1 + j) (data a) 0.

Definition tab1 (n : nat) (f : nat -> float) : ndarray :=
  {| shape := [n]; data := map f (seq 0 n) |}.
Definition tab2 (n d : nat) (f : nat -> nat -> float) : ndarray :=
  {| shape := [n; d];
     data := flat_map (fun i => map (f i) (seq 0 d)) (seq 0 n) |}.

(** A count as a float; exact below 2 ^ 53. *)
Fixpoint of_nat (n : nat) : float :=
  match n with
  | O => 0
  | S k => of_nat k + 1
  end.

Fixpoint rsum (n : nat) (f : nat -> float) : float :=
  match n with
  | O => 0
  | S k => rsum k f + f k
  end.

(** [np.maximum]: the larger of two floats, nan if either is. *)
Definition fmax (a b : float) : float :=
  if is_nan a then a else if is_nan b then b else if a <? b then b else a.

Inductive event : Type :=
| Figure
| Title (s : string)
| Hist (v : list float)
| Plot (v : list float)
| Print (s : string) (sh : option (list nat)).

Definition py (A : Type) : Type := (list event * (exn + A))%type.
Definition ret {A} (a : A) : py A := ([], inr a).
Definition raise {A} (e : exn) : py A := ([], inl e).
Definition emit (ev : event) : py unit := ([ev], inr tt).
Definition bind {A B} (m : py A) (k : A -> py B) : py B :=
  match m with
  | (t, inl e) => (t, inl e)
  | (t, inr a) => let (t', r) := k a in (t ++ t', r)
  end.
Definition assert (b : bool) : py unit :=
  if b then ret tt else raise AssertionError.
Definition outcome {A} (m : py A) : exn + A := snd m.

#[local] Set Warnings "-notation-overridden".
Local Notation "x <- m ;; k" := (bind m (fun x => k))
  (at level 61, m at next level, right associativity).
Local Notation "m ;;; k" := (bind m (fun _ => k))
  (at level 61, right associativity).
#[local] Set Warnings "notation-overridden".

Definition mean_axis1 (X : ndarray) : ndarray :=
  tab1 (dim X 0) (fun i => rsum (dim X 1) (get2 X i) / of_nat (dim X 1)).
Definition column0 (X : ndarray) : py ndarray :=
  if (dim X 1 =? 0)%nat then raise IndexError
  else ret (tab1 (dim X 0) (fun i => get2 X i 0)).
Definition mul_scalar1 (v : ndarray) (c : float) : ndarray :=
  tab1 (dim v 0) (fun i => get1 v i * c).
Definition add_scalar1 (v : ndarray) (c : float) : ndarray :=
  tab1 (dim v 0) (fun i => get1 v i + c).
Definition maximum1 (v : ndarray) (c : float) : ndarray :=
  tab1 (dim v 0) (fun i => fmax (get1 v i) c).
Definition sqrt1 (v : ndarray) : ndarray :=
  tab1 (dim v 0) (fun i => sqrt (get1 v i)).
Definition sub_col (X v : ndarray) : ndarray :=
  tab2 (dim X 0) (dim X 1) (fun i j => get2 X i j - get1 v i).
Definition div_col (X v : ndarray) : ndarray :=
  tab2 (dim X 0) (dim X 1) (fun i j => get2 X i j / get1 v i).
Definition mul2 (A B : ndarray) : ndarray :=
  tab2 (dim A 0) (dim A 1) (fun i j => get2 A i j * get2 B i j).
Definition sum_axis1 (A : ndarray) : ndarray :=
  tab1 (dim A 0) (fun i => rsum (dim A 1) (get2 A i)).

Record hyper : Type := mk_hyper {
  remove_mean : bool;
  hard_beta : bool;
  beta : float;
  gamma : float
}.

Definition contrast_normalize (h : hyper) (patches : ndarray) : py ndarray :=
  let X := patches in
  if negb (ndim X =? 2)%nat
  then raise (TypeError "contrast_normalize requires flat patches")
  else
    xm <- (if remove_mean h then ret (mean_axis1 X)
           else (c <- column0 X ;; ret (mul_scalar1 c 0))) ;;
    let Xc := sub_col X xm in
    let l2 := sum_axis1 (mul2 Xc Xc) in
    emit Figure ;;;
    emit (Title "l2 of image patches") ;;;
    emit (Hist (data l2)) ;;;
    let div2 := if hard_beta h then maximum1 l2 (beta h)
                else add_scalar1 l2 (beta h) in
    let X := div_col Xc (sqrt1 div2) in
    ret X.

Definition len (a : ndarray) : py nat :=
  match shape a with
  | [] => raise (TypeError "len() of unsized object")
  | n :: _ => ret n
  end.
Definition reshape_rows (a : ndarray) (n : nat) : py ndarray :=
  let size := fold_right Nat.mul 1%nat (shape a) in
  if (n =? 0)%nat then raise ValueError
  else if negb (size mod n =? 0)%nat then raise ValueError
  else ret {| shape := [n; (size / n)%nat]; data := data a |}.

(** Modelled from the spec: the feature-wise mean, as in the exact
    development. *)
Definition mean_and_std (X : ndarray) : ndarray :=
  tab1 (dim X 1)
       (fun j => rsum (dim X 0) (fun i => get2 X i j) / of_nat (dim X 0)).

Definition sub_row (X M : ndarray) : ndarray :=
  tab2 (dim X 0) (dim X 1) (fun i j => get2 X i j - get1 M j).
Definition mul_row (w V : ndarray) : ndarray :=
  tab2 (dim V 0) (dim V 1) (fun i j => get1 w j * get2 V i j).
Definition transpose (A : ndarray) : ndarray :=
  tab2 (dim A 1) (dim A 0) (fun i j => get2 A j i).
Definition dot (A B : ndarray) : ndarray :=
  tab2 (dim A 0) (dim B 1)
       (fun i j => rsum (dim A 1) (fun k => get2 A i k * get2 B k j)).
Definition div_scalar2 (A : ndarray) (c : float) : ndarray :=
  tab2 (dim A 0) (dim A 1) (fun i j => get2 A i j / c).
Definition rdiv_scalar1 (c : float) (v : ndarray) : ndarray :=
  tab1 (dim v 0) (fun i => c / get1 v i).

Definition eigensolver : Type :=
  nat -> (nat -> nat -> float) -> (nat -> float) * (nat -> nat -> float).
Definition eigh (solver : eigensolver) (C : ndarray) : ndarray * ndarray :=
  let d := dim C 0 in
  let (w, V) := solver d (get2 C) in
  (tab1 d w, tab2 d d V).

Definition ZCA_whiten (solver : eigensolver) (h : hyper) (patches : ndarray)
  : py (list ndarray) :=
  n <- len patches ;;
  X <- reshape_rows patches n ;;
  X <- contrast_normalize h X ;;
  emit (Print "patch_whitening_filterbank_X starting ZCA" None) ;;;
  let M := mean_and_std X in
  let Xm := sub_row X M in
  assert (shape_eqb (shape Xm) (shape X)) ;;;
  emit (Print "patch_whitening_filterbank_X starting ZCA: dot"
              (Some (shape Xm))) ;;;
  let C := div_scalar2 (dot (transpose Xm) Xm) (of_nat (dim Xm 0 - 1)) in
  emit (Print "patch_whitening_filterbank_X starting ZCA: eigh" None) ;;;
  let (D, V) := eigh solver C in
  emit Figure ;;;
  emit (Plot (data D)) ;;;
  emit (Title "Eigenspectrum of image patches") ;;;
  emit (Print "patch_whitening_filterbank_X starting ZCA: dot"
              (Some (shape V))) ;;;
  let P := dot (mul_row (sqrt1 (rdiv_scalar1 1 (add_scalar1 D (gamma h)))) V)
               (transpose V) in
  assert (ndim M =? 1)%nat ;;;
  ret [M; P; X].

(** The squared L2 norm of a row, computed as numpy would,
    [(Y * Y).sum(axis=1)]. *)
Definition row_norm2 (Y : ndarray) (i : nat) : float :=
  rsum (dim Y 1) (fun j => get2 Y i j * get2 Y i j).

(** The exact value of a finite float, [m * 2 ^ e]. *)
Definition exact (x : float) : option (Z * Z) :=
  match FloatOps.Prim2SF x with
  | SpecFloat.S754_zero _ => Some (0%Z, 0%Z)
  | SpecFloat.S754_finite s m e => Some (if s then Z.neg m else Z.pos m, e)
  | _ => None
  end.

(** The sum of the squares of finite floats, without any rounding, in
    units of [2 ^ (2 * e)]; [e] must not exceed the exponents at hand. *)
Fixpoint exact_squares (e : Z) (l : list float) : option Z :=
  match l with
  | [] => Some 0%Z
  | x :: l' =>
      match exact x, exact_squares e l' with
      | Some (m, ex), Some s =>
          if (ex <? e)%Z then None
          else Some (m * m * 2 ^ (2 * (ex - e)) + s)%Z
      | _, _ => None
      end
  end.

(** How the exact squared norm of row [i] compares with 1. *)
Definition exact_row_norm2_vs_1 (Y : ndarray) (i : nat) : option comparison :=
  let e := (-1100)%Z in
  match exact_squares e (map (get2 Y i) (seq 0 (dim Y 1))) with
  | Some s => Some (Z.compare s (2 ^ (2 * - e)))
  | None => None
  end.

(** *** Sample inputs *)

Definition hyper_hard : hyper :=
  {| remove_mean := false; hard_beta := true; beta := 1; gamma := 1 |}.

(** One patch [(5, 12)], of squared norm 169. *)
Definition patch_5_12 : ndarray := {| shape := [1; 2]%nat; data := [5; 12] |}.

(** Hard and soft thresholding at [beta = 10], and one patch
    [(3e8, 4e8)], of squared norm 2.5e17. *)
Definition hyper_hard_10 : hyper :=
  {| remove_mean := false; hard_beta := true; beta := 10; gamma := 1 |}.
Definition hyper_soft_10 : hyper :=
  {| remove_mean := false; hard_beta := false; beta := 10; gamma := 1 |}.
Definition patch_3e8_4e8 : ndarray :=
  {| shape := [1; 2]%nat; data := [300000000; 400000000] |}.

(** Four patches along two orthogonal directions. *)
Definition rotation_batch : ndarray :=
  {| shape := [4; 2]%nat;
     data := [3 / 5; 4 / 5; - (3 / 5); - (4 / 5);
              - (2 / 5); 3 / 10; 2 / 5; - (3 / 10)] |}.

(** An eigensolver that returns the eigenvalues 1/6 and 2/3 with the
    eigenvectors (-4/5, 3/5) and (3/5, 4/5), rounded to binary64. *)
Definition rotation_solver : eigensolver :=
  fun _ _ =>
    (fun k => match k with O => 1 / 6 | _ => 2 / 3 end,
     fun i j => match i, j with
                | O, O => - (4 / 5)
                | O, _ => 3 / 5
                | _, O => 3 / 5
                | _, _ => 4 / 5
                end).

(** Nine patches: four of norm 2 along the axes and five null ones.  The
    sample covariance of the batch is the identity. *)
Definition cross_batch : ndarray :=
  {| shape := [9; 2]%nat;
     data := [2; 0; - 2; 0; 0; 2; 0; - 2;
              0; 0; 0; 0; 0; 0; 0; 0; 0; 0] |}.

Definition diagonal_solver : eigensolver :=
  fun _ C => (fun k => C k k, fun i j => if (i =? j)%nat then 1 else 0).

(** The sample covariance of a batch, as [ZCA_whiten] computes it. *)
Definition covariance (X : ndarray) : ndarray :=
  let Xm := sub_row X (mean_and_std X) in
  div_scalar2 (dot (transpose Xm) Xm) (of_nat (dim Xm 0 - 1)).
End Binary64.

(* ================================================================== *)
(** * Properties *)

(** ** Sums *)

Lemma rsum_ext (n : nat) (f g : nat -> R) :
  (forall k, (k < n)%nat -> f k = g k) -> rsum n f = rsum n g.
Proof.
  induction n as [|n IH]; intros E; simpl; [reflexivity|].
  rewrite IH by (intros; apply E; lia).
  rewrite (E n) by lia. reflexivity.
Qed.

Lemma rsum_scal_l (n : nat) (c : R) (f : nat -> R) :
  rsum n (fun k => c * f k) = c * rsum n f.
Proof. induction n as [|n IH]; simpl; [ring | rewrite IH; ring]. Qed.

Lemma rsum_scal_r (n : nat) (c : R) (f : nat -> R) :
  rsum n (fun k => f k * c) = rsum n f * c.
Proof. induction n as [|n IH]; simpl; [ring | rewrite IH; ring]. Qed.

Lemma rsum_zero (n : nat) (f : nat -> R) :
  (forall k, (k < n)%nat -> f k = 0) -> rsum n f = 0.
Proof.
  induction n as [|n IH]; intros Z; simpl; [reflexivity|].
  rewrite IH by (intros; apply Z; lia). rewrite (Z n) by lia. ring.
Qed.

Lemma rsum_nonneg (n : nat) (f : nat -> R) :
  (forall k, (k < n)%nat -> 0 <= f k) -> 0 <= rsum n f.
Proof.
  induction n as [|n IH]; intros P; simpl; [lra|].
  assert (0 <= rsum n f) by (apply IH; intros; apply P; lia).
  assert (0 <= f n) by (apply P; lia). lra.
Qed.

Lemma rsum_squares_nonneg (n : nat) (f : nat -> R) :
  0 <= rsum n (fun k => f k * f k).
Proof. apply rsum_nonneg; intros; nra. Qed.

(** A sum of squares vanishes only when every term does. *)
Lemma rsum_squares_zero (n : nat) (f : nat -> R) :
  rsum n (fun k => f k * f k) = 0 -> forall k, (k < n)%nat -> f k = 0.
Proof.
  induction n as [|n IH]; simpl; intros Z k Hk; [lia|].
  pose proof (rsum_squares_nonneg n f) as P.
  assert (f n * f n = 0 /\ rsum n (fun k => f k * f k) = 0) as [Zn Zs] by nra.
  destruct (Nat.eq_dec k n) as [->|]; [nra | apply IH; [exact Zs | lia]].
Qed.

(** Only the diagonal term survives in a sum against a Kronecker delta. *)
Lemma rsum_delta (n k : nat) (f : nat -> R) :
  (k < n)%nat ->
  rsum n (fun l => f l * (if (l =? k)%nat then 1 else 0)) = f k.
Proof.
  induction n as [|n IH]; intros Hk; simpl; [lia|].
  destruct (Nat.eq_dec k n) as [->|Hne].
  - rewrite Nat.eqb_refl. rewrite rsum_zero; [ring|].
    intros l Hl. destruct (Nat.eqb_spec l n); [lia | ring].
  - rewrite IH by lia. destruct (Nat.eqb_spec n k); [lia | ring].
Qed.

(** ** Arrays built entry by entry *)

Lemma nth_flat_map_seq (d : nat) (f : nat -> nat -> R) (n s i j : nat) :
  (i < n)%nat -> (j < d)%nat ->
  nth (i * d + j) (flat_map (fun i => map (f i) (seq 0 d)) (seq s n)) 0
  = f (s + i)%nat j.
Proof.
  revert s i; induction n as [|n IH]; intros s i Hi Hj; [lia|].
  simpl. destruct i as [|i].
  - simpl. rewrite app_nth1 by (rewrite length_map, length_seq; exact Hj).
    rewrite (nth_indep _ 0 (f s 0%nat))
      by (rewrite length_map, length_seq; exact Hj).
    rewrite map_nth, seq_nth by exact Hj. f_equal; lia.
  - rewrite app_nth2 by (rewrite length_map, length_seq; simpl; lia).
    rewrite length_map, length_seq.
    replace (S i * d + j - d)%nat with (i * d + j)%nat by (simpl; lia).
    rewrite IH by lia. f_equal; lia.
Qed.

Lemma length_flat_map_seq (d : nat) (f : nat -> nat -> R) (n s : nat) :
  length (flat_map (fun i => map (f i) (seq 0 d)) (seq s n)) = (n * d)%nat.
Proof.
  revert s; induction n as [|n IH]; intros s; simpl; [reflexivity|].
  rewrite length_app, length_map, length_seq, IH. reflexivity.
Qed.

Lemma get2_tab2 (n d : nat) (f : nat -> nat -> R) (i j : nat) :
  (i < n)%nat -> (j < d)%nat -> get2 (tab2 n d f) i j = f i j.
Proof.
  intros Hi Hj. unfold get2, tab2, dim; simpl.
  apply (nth_flat_map_seq d f n 0 i j Hi Hj).
Qed.

Lemma get1_tab1 (n : nat) (f : nat -> R) (i : nat) :
  (i < n)%nat -> get1 (tab1 n f) i = f i.
Proof.
  intros Hi. unfold get1, tab1; simpl.
  rewrite (nth_indep _ 0 (f 0%nat)) by (rewrite length_map, length_seq; exact Hi).
  rewrite map_nth, seq_nth by exact Hi. reflexivity.
Qed.

Lemma tab1_ext (n : nat) (f g : nat -> R) :
  (forall i, (i < n)%nat -> f i = g i) -> tab1 n f = tab1 n g.
Proof.
  intros E. unfold tab1. f_equal. apply map_ext_in.
  intros i Hi. apply in_seq in Hi. apply E. lia.
Qed.

Lemma tab2_ext (n d : nat) (f g : nat -> nat -> R) :
  (forall i j, (i < n)%nat -> (j < d)%nat -> f i j = g i j) ->
  tab2 n d f = tab2 n d g.
Proof.
  intros E. unfold tab2. f_equal.
  rewrite !flat_map_concat_map. f_equal. apply map_ext_in.
  intros i Hi. apply in_seq in Hi. apply map_ext_in.
  intros j Hj. apply in_seq in Hj. apply E; lia.
Qed.

Lemma well_formed_tab2 (n d : nat) (f : nat -> nat -> R) :
  well_formed (tab2 n d f).
Proof.
  unfold well_formed, tab2; simpl.
  rewrite length_flat_map_seq. lia.
Qed.

Lemma well_formed_tab1 (n : nat) (f : nat -> R) : well_formed (tab1 n f).
Proof.
  unfold well_formed, tab1; simpl. rewrite length_map, length_seq. lia.
Qed.

(** Two matrices of one shape with the same entries are the same array. *)
Lemma tab2_get2 (n d : nat) (A : ndarray) :
  shape A = [n; d] -> well_formed A -> tab2 n d (get2 A) = A.
Proof.
  intros Hs Hw. destruct A as [sh dat]; simpl in *. subst sh.
  unfold tab2. f_equal. unfold well_formed in Hw; simpl in Hw.
  unfold get2, dim; simpl.
  apply (nth_ext _ _ 0 0).
  - rewrite length_flat_map_seq, Hw. lia.
  - intros k Hk. rewrite length_flat_map_seq in Hk.
    assert (d <> 0)%nat by (intros ->; lia).
    rewrite (Nat.div_mod_eq k d) at 1.
    rewrite (Nat.mul_comm d (k / d)).
    rewrite (nth_flat_map_seq d (fun i j => nth (i * d + j) dat 0) n 0).
    + simpl. f_equal. rewrite (Nat.div_mod_eq k d) at 3. lia.
    + apply Nat.Div0.div_lt_upper_bound. lia.
    + apply Nat.mod_upper_bound. assumption.
Qed.

Lemma dim0_tab2 (n d : nat) (f : nat -> nat -> R) : dim (tab2 n d f) 0 = n.
Proof. reflexivity. Qed.

Lemma dim1_tab2 (n d : nat) (f : nat -> nat -> R) : dim (tab2 n d f) 1 = d.
Proof. reflexivity. Qed.

Lemma dim0_tab1 (n : nat) (f : nat -> R) : dim (tab1 n f) 0 = n.
Proof. reflexivity. Qed.

Ltac dims :=
  repeat (rewrite dim0_tab2 || rewrite dim1_tab2 || rewrite dim0_tab1).

Lemma transpose_tab2 (d : nat) (F : nat -> nat -> R) :
  transpose (tab2 d d F) = tab2 d d (fun i j => F j i).
Proof.
  unfold transpose. dims. apply tab2_ext. intros i j Hi Hj.
  now rewrite get2_tab2.
Qed.

(** Entries of the products that occur in [eigen_decomposition]. *)
Lemma get2_dot (A B : ndarray) (i j : nat) :
  (i < dim A 0)%nat -> (j < dim B 1)%nat ->
  get2 (dot A B) i j = rsum (dim A 1) (fun k => get2 A i k * get2 B k j).
Proof. intros Hi Hj. unfold dot. now rewrite get2_tab2. Qed.

Lemma get2_identity (d i j : nat) :
  (i < d)%nat -> (j < d)%nat ->
  get2 (identity d) i j = if (i =? j)%nat then 1 else 0.
Proof. intros Hi Hj. unfold identity. now rewrite get2_tab2. Qed.

(** ** Python calls *)

Lemma outcome_bind {A B : Type} (m : py A) (k : A -> py B) :
  outcome (bind m k)
  = match outcome m with
    | inl e => inl e
    | inr a => outcome (k a)
    end.
Proof.
  destruct m as [t [e|a]]; simpl; [reflexivity|].
  destruct (k a); reflexivity.
Qed.

(** ** contrast_normalize, statement by statement *)

Lemma dim_of_shape (X : ndarray) (n d : nat) :
  shape X = [n; d] -> dim X 0 = n /\ dim X 1 = d /\ ndim X = 2%nat.
Proof. intros Hs. unfold dim, ndim. rewrite Hs. auto. Qed.

(** The means are computed without any diagnostic, and the only way to
    fail is the missing first column of the [remove_mean = False] branch. *)
Lemma patch_means_cases (h : hyper) (X : ndarray) :
  (patch_means h X = ([], inl IndexError) /\
   remove_mean h = false /\ dim X 1 = 0%nat) \/
  (exists xm, patch_means h X = ([], inr xm) /\
              shape xm = [dim X 0] /\
              (remove_mean h = true \/ (0 < dim X 1)%nat) /\
              forall i, (i < dim X 0)%nat -> get1 xm i = row_mean h X i).
Proof.
  unfold patch_means, row_mean, column0.
  destruct (remove_mean h).
  - right. eexists; split; [reflexivity|]. split; [reflexivity|].
    split; [now left|]. intros i Hi. unfold mean_axis1.
    now rewrite get1_tab1.
  - destruct (Nat.eqb_spec (dim X 1) 0) as [E|NE].
    + left. auto.
    + right. eexists; split; [reflexivity|]. split; [reflexivity|].
      split; [right; lia|]. intros i Hi.
      unfold mul_scalar1. simpl. rewrite get1_tab1 by exact Hi. ring.
Qed.

(** From the means on, every statement of [contrast_normalize] computes
    the quantity of the specification that goes by the same name. *)
Section Statements.
Variable h : hyper.
Variables X xm : ndarray.
Hypothesis means_ok :
  forall i, (i < dim X 0)%nat -> get1 xm i = row_mean h X i.

Let Xc : ndarray := sub_col X xm.
Let l2 : ndarray := sum_axis1 (mul2 Xc Xc).

Lemma code_centered (i j : nat) :
  (i < dim X 0)%nat -> (j < dim X 1)%nat ->
  get2 Xc i j = centered h X i j.
Proof.
  intros Hi Hj. unfold Xc, sub_col, centered.
  rewrite get2_tab2 by assumption. now rewrite means_ok.
Qed.

Lemma code_l2 (i : nat) :
  (i < dim X 0)%nat -> get1 l2 i = norm2 h X i.
Proof.
  intros Hi. unfold l2, sum_axis1, norm2.
  change (dim (mul2 Xc Xc) 0) with (dim X 0).
  change (dim (mul2 Xc Xc) 1) with (dim X 1).
  rewrite get1_tab1 by exact Hi. apply rsum_ext. intros j Hj.
  unfold mul2. change (dim Xc 0) with (dim X 0).
  change (dim Xc 1) with (dim X 1).
  rewrite get2_tab2 by assumption.
  now rewrite code_centered by assumption.
Qed.

Lemma dim_denominators : dim (denominators h l2) 0 = dim X 0.
Proof. unfold denominators. destruct (hard_beta h); reflexivity. Qed.

Lemma code_div2 (i : nat) :
  (i < dim X 0)%nat -> get1 (denominators h l2) i = denominator h X i.
Proof.
  intros Hi. unfold denominators, denominator.
  destruct (hard_beta h); [unfold maximum1 | unfold add_scalar1];
    change (dim l2 0) with (dim X 0);
    rewrite get1_tab1 by exact Hi;
    now rewrite code_l2 by assumption.
Qed.

Lemma code_divisor (i : nat) :
  (i < dim X 0)%nat ->
  get1 (sqrt1 (denominators h l2)) i = sqrt (denominator h X i).
Proof.
  intros Hi. unfold sqrt1. rewrite dim_denominators.
  rewrite get1_tab1 by exact Hi. now rewrite code_div2.
Qed.

Lemma code_output :
  div_col Xc (sqrt1 (denominators h l2)) = normalize_spec h X.
Proof.
  unfold div_col, normalize_spec.
  change (dim Xc 0) with (dim X 0). change (dim Xc 1) with (dim X 1).
  apply tab2_ext. intros i j Hi Hj.
  rewrite code_centered, code_divisor by assumption. reflexivity.
Qed.
End Statements.

(** The whole call, on a two-dimensional array: either the [IndexError] of
    the missing first column, before any diagnostic, or the histogram of
    the squared norms followed by the normalised batch. *)
Lemma contrast_normalize_cases (h : hyper) (X : ndarray) :
  ndim X = 2%nat ->
  (contrast_normalize h X = ([], inl IndexError) /\
   remove_mean h = false /\ dim X 1 = 0%nat) \/
  ((remove_mean h = true \/ (0 < dim X 1)%nat) /\
   exists l2,
     contrast_normalize h X
     = ([Figure; Title "l2 of image patches"; Hist l2],
        inr (normalize_spec h X))).
Proof.
  intros H2. unfold contrast_normalize. rewrite H2. simpl negb. cbv iota.
  destruct (patch_means_cases h X) as [(E & Hr & Hd) | (xm & E & _ & Hc & Hm)];
    rewrite E.
  - left. auto.
  - right. split; [exact Hc|]. eexists. cbn [bind emit ret app].
    rewrite (code_output h X xm Hm). reflexivity.
Qed.

Lemma contrast_normalize_inv (h : hyper) (X Y : ndarray) :
  ndim X = 2%nat ->
  outcome (contrast_normalize h X) = inr Y -> Y = normalize_spec h X.
Proof.
  intros H2 HY.
  destruct (contrast_normalize_cases h X H2) as [(E & _) | (_ & l2 & E)];
    rewrite E in HY; simpl in HY; congruence.
Qed.

Lemma contrast_normalize_returns (h : hyper) (X : ndarray) :
  ndim X = 2%nat ->
  remove_mean h = true \/ (0 < dim X 1)%nat ->
  outcome (contrast_normalize h X) = inr (normalize_spec h X).
Proof.
  intros H2 Hc.
  destruct (contrast_normalize_cases h X H2) as [(_ & Hr & Hd) | (_ & l2 & E)].
  - destruct Hc; [congruence | lia].
  - rewrite E. reflexivity.
Qed.

(** ** Norms of the normalised rows *)

Lemma norm2_nonneg (h : hyper) (X : ndarray) (i : nat) : 0 <= norm2 h X i.
Proof. unfold norm2. apply rsum_squares_nonneg. Qed.

Lemma denominator_ge_norm2 (h : hyper) (X : ndarray) (i : nat) :
  0 <= beta h -> norm2 h X i <= denominator h X i.
Proof.
  intros Hb. unfold denominator. destruct (hard_beta h).
  - apply Rmax_l.
  - lra.
Qed.

Lemma denominator_pos (h : hyper) (X : ndarray) (i : nat) :
  0 < beta h -> 0 < denominator h X i.
Proof.
  intros Hb. pose proof (norm2_nonneg h X i) as P.
  unfold denominator. destruct (hard_beta h).
  - apply Rlt_le_trans with (beta h); [exact Hb | apply Rmax_r].
  - lra.
Qed.

(** After the division the squared norm of a row is the quotient of the
    squared norm of the centred row by the squared denominator. *)
Lemma row_norm2_normalize (h : hyper) (X : ndarray) (i : nat) :
  (i < dim X 0)%nat -> 0 < denominator h X i ->
  row_norm2 (normalize_spec h X) i = norm2 h X i / denominator h X i.
Proof.
  intros Hi Hq. unfold row_norm2, normalize_spec, norm2. simpl.
  pose proof (sqrt_lt_R0 _ Hq) as Hs.
  pose proof (sqrt_sqrt _ (Rlt_le _ _ Hq)) as Hss.
  rewrite (rsum_ext _ _
             (fun j => centered h X i j * centered h X i j
                       * / denominator h X i)).
  - apply rsum_scal_r.
  - intros j Hj. rewrite get2_tab2 by assumption.
    rewrite <- Hss at 3. field. lra.
Qed.

(* ================================================================== *)
(** ** Claims about contrast_normalize *)

(** For every two-dimensional N x D batch with at least one feature
    column (or with [remove_mean] set) and every configuration with
    [beta > 0], [contrast_normalize] returns the batch obtained by
    subtracting from each row its arithmetic mean over the
    feature axis if [remove_mean] is true (zero otherwise) and dividing
    each centred row by the square root of [max(l2, beta)] under
    [hard_beta] and of [l2 + beta] otherwise, [l2] being the squared norm
    of the centred row. *)
Lemma contrast_normalize_correct (h : hyper) (X : ndarray) (n d : nat) :
  shape X = [n; d] ->
  0 < beta h ->
  remove_mean h = true \/ (0 < d)%nat ->
  outcome (contrast_normalize h X) = inr (normalize_spec h X).
Proof.
  intros Hs _ Hc. destruct (dim_of_shape X n d Hs) as (_ & Hd & H2).
  apply contrast_normalize_returns; [exact H2 | now rewrite Hd].
Qed.

(** C1.  The claim is that of the lemma [contrast_normalize_correct]
    without its restriction: every two-dimensional batch is normalised.
    On the batch of shape (1, 0), whose normalised form is the empty batch
    itself, the code does so when [remove_mean] is true and fails when
    [remove_mean] is false: [X[:, 0] * 0], meant as the zero mean, raises
    [IndexError] before anything is computed. *)
Theorem contrast_normalize_zero_width :
  shape patch_no_feature = [1; 0]%nat /\
  well_formed patch_no_feature /\
  0 < beta hyper_hard /\
  remove_mean hyper_hard = false /\
  normalize_spec hyper_hard patch_no_feature = patch_no_feature /\
  contrast_normalize hyper_hard patch_no_feature = ([], inl IndexError) /\
  0 < beta hyper_mean /\
  remove_mean hyper_mean = true /\
  outcome (contrast_normalize hyper_mean patch_no_feature)
  = inr patch_no_feature.
Proof.
  split; [reflexivity|]. split; [reflexivity|].
  split; [simpl; lra|]. split; [reflexivity|].
  split; [reflexivity|]. split; [reflexivity|].
  split; [simpl; lra|]. split; reflexivity.
Qed.

(** C3 (as amended).  In exact arithmetic, with [hard_beta] true and
    [beta > 0], every row of the output of [contrast_normalize] whose
    centred squared L2 norm is at least [beta] has squared L2 norm
    exactly 1.  (In float64 the norm is 1 up to rounding only, see the
    last section.) *)
Theorem hard_beta_unit_norm (h : hyper) (X Y : ndarray) (n d i : nat) :
  hard_beta h = true ->
  0 < beta h ->
  shape X = [n; d] ->
  outcome (contrast_normalize h X) = inr Y ->
  (i < n)%nat ->
  beta h <= norm2 h X i ->
  row_norm2 Y i = 1.
Proof.
  intros Hh Hb Hs HY Hi Hge.
  destruct (dim_of_shape X n d Hs) as (Hn & _ & H2).
  rewrite (contrast_normalize_inv h X Y H2 HY).
  rewrite row_norm2_normalize
    by (rewrite ?Hn; auto using denominator_pos).
  unfold denominator. rewrite Hh, Rmax_left by exact Hge.
  field. lra.
Qed.

(** C4.  [contrast_normalize] raises its [TypeError] if and only if the
    input is not two-dimensional; on such an input the error comes before
    any diagnostic and no output is produced. *)
Theorem contrast_normalize_type_error (h : hyper) (X : ndarray) :
  ((exists msg, outcome (contrast_normalize h X) = inl (TypeError msg))
   <-> ndim X <> 2%nat) /\
  (ndim X <> 2%nat ->
   contrast_normalize h X
   = ([], inl (TypeError "contrast_normalize requires flat patches"))).
Proof.
  assert (ndim X <> 2%nat ->
          contrast_normalize h X
          = ([], inl (TypeError "contrast_normalize requires flat patches")))
    as Hbad.
  { intros Hne. unfold contrast_normalize.
    destruct (Nat.eqb_spec (ndim X) 2); [contradiction | reflexivity]. }
  split; [split | exact Hbad].
  - intros [msg E] H2.
    destruct (contrast_normalize_cases h X H2) as [(E' & _) | (_ & l2 & E')];
      rewrite E' in E; discriminate.
  - intros Hne. eexists. rewrite (Hbad Hne). reflexivity.
Qed.

(** A vector is refused, whatever the hyper-parameters. *)
Example contrast_normalize_vector :
  contrast_normalize notebook_hyper vector_3
  = ([], inl (TypeError "contrast_normalize requires flat patches")).
Proof. reflexivity. Qed.

(** C9.  For every two-dimensional N x D input and every configuration
    with [beta > 0], the output of [contrast_normalize] has the shape
    N x D of its input (and holds N * D entries). *)
Theorem contrast_normalize_shape (h : hyper) (X Y : ndarray) (n d : nat) :
  shape X = [n; d] ->
  0 < beta h ->
  outcome (contrast_normalize h X) = inr Y ->
  shape Y = shape X /\ length (data Y) = (n * d)%nat.
Proof.
  intros Hs _ HY. destruct (dim_of_shape X n d Hs) as (Hn & Hd & H2).
  rewrite (contrast_normalize_inv h X Y H2 HY), Hs.
  unfold normalize_spec. rewrite Hn, Hd. split; [reflexivity|].
  pose proof (well_formed_tab2 n d
                (fun i j => centered h X i j / sqrt (denominator h X i))) as W.
  unfold well_formed in W. rewrite W. simpl. lia.
Qed.

(** C10 (as amended).  In exact arithmetic, for every two-dimensional
    input and every [beta > 0], whatever the flags, every row of the
    output of [contrast_normalize] has squared L2 norm at most 1.  (In
    float64 the bound can be exceeded by rounding, see the last
    section.) *)
Theorem normalized_rows_bounded (h : hyper) (X Y : ndarray) (n d i : nat) :
  shape X = [n; d] ->
  0 < beta h ->
  outcome (contrast_normalize h X) = inr Y ->
  (i < n)%nat ->
  row_norm2 Y i <= 1.
Proof.
  intros Hs Hb HY Hi.
  destruct (dim_of_shape X n d Hs) as (Hn & _ & H2).
  rewrite (contrast_normalize_inv h X Y H2 HY).
  pose proof (denominator_pos h X i Hb) as Hq.
  rewrite row_norm2_normalize by (rewrite ?Hn; assumption).
  pose proof (denominator_ge_norm2 h X i (Rlt_le _ _ Hb)) as Hle.
  apply (Rmult_le_reg_r (denominator h X i)); [exact Hq|].
  unfold Rdiv. rewrite Rmult_assoc, Rinv_l by lra. lra.
Qed.

(** The sample patch [(3, 4)], its mean kept, has squared norm 25. *)
Lemma norm2_patch_3_4 (h : hyper) :
  remove_mean h = false -> norm2 h patch_3_4 0 = 25.
Proof.
  intros Hr. unfold norm2, centered, row_mean, get2, dim. rewrite Hr.
  simpl. lra.
Qed.

Lemma hard_beta_unit_norm_witness :
  row_norm2 (normalize_spec hyper_hard patch_3_4) 0 = 1.
Proof.
  apply (hard_beta_unit_norm hyper_hard patch_3_4 _ 1 2 0).
  - reflexivity.
  - simpl. lra.
  - reflexivity.
  - apply contrast_normalize_returns; [reflexivity | right; unfold dim; simpl; lia].
  - lia.
  - rewrite norm2_patch_3_4 by reflexivity. simpl. lra.
Defined.

Lemma contrast_normalize_shape_witness :
  shape (normalize_spec hyper_hard patch_3_4) = shape patch_3_4 /\
  length (data (normalize_spec hyper_hard patch_3_4)) = (1 * 2)%nat.
Proof.
  apply (contrast_normalize_shape hyper_hard patch_3_4 _ 1 2).
  - reflexivity.
  - simpl. lra.
  - apply contrast_normalize_returns; [reflexivity | right; unfold dim; simpl; lia].
Defined.

Lemma normalized_rows_bounded_witness :
  row_norm2 (normalize_spec hyper_soft patch_3_4) 0 <= 1.
Proof.
  apply (normalized_rows_bounded hyper_soft patch_3_4 _ 1 2 0).
  - reflexivity.
  - simpl. lra.
  - apply contrast_normalize_returns; [reflexivity | right; unfold dim; simpl; lia].
  - lia.
Defined.

(** ** Hard against soft thresholding *)

Lemma centered_congr (h1 h2 : hyper) (X : ndarray) (i j : nat) :
  remove_mean h1 = remove_mean h2 -> centered h1 X i j = centered h2 X i j.
Proof. intros E. unfold centered, row_mean. now rewrite E. Qed.

Lemma norm2_congr (h1 h2 : hyper) (X : ndarray) (i : nat) :
  remove_mean h1 = remove_mean h2 -> norm2 h1 X i = norm2 h2 X i.
Proof.
  intros E. unfold norm2. apply rsum_ext. intros j _.
  now rewrite (centered_congr h1 h2 X i j E).
Qed.

(** Dividing a non-zero entry by the roots of two different positive
    denominators gives two different quotients. *)
Lemma quotients_differ (c q1 q2 : R) :
  c <> 0 -> 0 < q1 -> 0 < q2 -> q1 <> q2 -> c / sqrt q1 <> c / sqrt q2.
Proof.
  intros Hc H1 H2 Hne E.
  pose proof (sqrt_lt_R0 _ H1) as S1. pose proof (sqrt_lt_R0 _ H2) as S2.
  apply Hne. apply sqrt_inj; [lra | lra |].
  assert (c * sqrt q2 = c * sqrt q1) as E'.
  { transitivity (c / sqrt q1 * (sqrt q1 * sqrt q2)); [field; lra|].
    rewrite E. field; lra. }
  apply (Rmult_eq_reg_l c); [symmetry; exact E' | exact Hc].
Qed.

Lemma get2_normalize_spec (h : hyper) (X : ndarray) (i j : nat) :
  (i < dim X 0)%nat -> (j < dim X 1)%nat ->
  get2 (normalize_spec h X) i j
  = centered h X i j / sqrt (denominator h X i).
Proof. intros Hi Hj. unfold normalize_spec. now rewrite get2_tab2. Qed.

(** C5.  Under [hard_beta] with [beta > 0] the array by which
    [contrast_normalize] divides is positive in every row, and at least
    [sqrt beta] (so also in an all-zero row), whereas under soft thresholding with [beta = 0] the
    divisor of an all-zero row is 0. *)
Theorem divisor_floor (h : hyper) (X xm : ndarray) (n d : nat) :
  shape X = [n; d] ->
  outcome (patch_means h X) = inr xm ->
  let Xc := sub_col X xm in
  let divisor := sqrt1 (denominators h (sum_axis1 (mul2 Xc Xc))) in
  outcome (contrast_normalize h X) = inr (div_col Xc divisor) /\
  (hard_beta h = true -> 0 < beta h ->
   forall i, (i < n)%nat ->
             0 < get1 divisor i /\ sqrt (beta h) <= get1 divisor i) /\
  (hard_beta h = false -> beta h = 0 ->
   forall i, (i < n)%nat ->
             (forall j, (j < d)%nat -> get2 X i j = 0) ->
             get1 divisor i = 0).
Proof.
  intros Hs Hxm Xc divisor.
  destruct (dim_of_shape X n d Hs) as (Hn & Hd & H2).
  assert (patch_means h X = ([], inr xm) /\
          forall i, (i < dim X 0)%nat -> get1 xm i = row_mean h X i)
    as [E Hm].
  { destruct (patch_means_cases h X) as [(E & _) | (xm' & E & _ & _ & Hm)];
      rewrite E in Hxm; simpl in Hxm; [discriminate|].
    injection Hxm as <-. auto. }
  assert (forall i, (i < n)%nat ->
                    get1 divisor i = sqrt (denominator h X i)) as Hq.
  { intros i Hi. subst divisor Xc.
    apply (code_divisor h X xm Hm). now rewrite Hn. }
  split; [|split].
  - unfold contrast_normalize. rewrite H2, E. reflexivity.
  - intros Hh Hb i Hi. rewrite (Hq i Hi). split.
    + apply sqrt_lt_R0, denominator_pos, Hb.
    + apply sqrt_le_1_alt. unfold denominator. rewrite Hh. apply Rmax_r.
  - intros Hh Hb i Hi Hz. rewrite (Hq i Hi).
    assert (norm2 h X i = 0) as Hz2.
    { unfold norm2. apply rsum_zero. intros j Hj. rewrite Hd in Hj.
      assert (centered h X i j = 0) as ->; [|ring].
      unfold centered, row_mean. rewrite (Hz j Hj).
      destruct (remove_mean h); [|ring].
      rewrite (rsum_zero (dim X 1) (get2 X i))
        by (intros k Hk; apply Hz; lia).
      unfold Rdiv. ring. }
    unfold denominator. rewrite Hh, Hb, Hz2, Rplus_0_r. apply sqrt_0.
Qed.

Lemma divisor_floor_witness :
  (0 < get1 (sqrt1 (denominators hyper_hard
                      (sum_axis1 (mul2 (sub_col patch_0_0 means_0_0)
                                       (sub_col patch_0_0 means_0_0))))) 0
   /\
   sqrt (beta hyper_hard)
   <= get1 (sqrt1 (denominators hyper_hard
                     (sum_axis1 (mul2 (sub_col patch_0_0 means_0_0)
                                      (sub_col patch_0_0 means_0_0))))) 0)
  /\
  get1 (sqrt1 (denominators hyper_soft0
                 (sum_axis1 (mul2 (sub_col patch_0_0 means_0_0)
                                  (sub_col patch_0_0 means_0_0))))) 0 = 0.
Proof.
  split.
  - destruct (divisor_floor hyper_hard patch_0_0 means_0_0 1 2
                eq_refl eq_refl) as (_ & Hpos & _).
    apply Hpos; [reflexivity | simpl; lra | lia].
  - destruct (divisor_floor hyper_soft0 patch_0_0 means_0_0 1 2
                eq_refl eq_refl) as (_ & _ & Hzero).
    apply Hzero; [reflexivity | reflexivity | lia |].
    intros j Hj. unfold get2, dim. simpl.
    destruct j as [|[|j]]; [reflexivity | reflexivity | lia].
Defined.

(** Two configurations that differ only in [hard_beta], with [beta > 0]:
    in exact arithmetic the two outputs of [contrast_normalize] agree on a
    row exactly when its centred squared norm is 0; on a row of squared
    norm at least [beta] the squared denominators are the norm itself
    (hard) and the norm plus [beta] (soft). *)
Lemma thresholding_rows
        (hh hs : hyper) (X Yh Ys : ndarray) (n d i : nat) :
  hard_beta hh = true -> hard_beta hs = false ->
  remove_mean hh = remove_mean hs -> beta hh = beta hs ->
  0 < beta hh ->
  shape X = [n; d] ->
  outcome (contrast_normalize hh X) = inr Yh ->
  outcome (contrast_normalize hs X) = inr Ys ->
  (i < n)%nat ->
  ((forall j, (j < d)%nat -> get2 Yh i j = get2 Ys i j)
   <-> norm2 hh X i = 0) /\
  (beta hh <= norm2 hh X i ->
   denominator hh X i = norm2 hh X i /\
   denominator hs X i = norm2 hh X i + beta hh).
Proof.
  intros Hh Hsf Hrm Hbeta Hb Hs HYh HYs Hi.
  destruct (dim_of_shape X n d Hs) as (Hn & Hd & H2).
  rewrite (contrast_normalize_inv hh X Yh H2 HYh).
  rewrite (contrast_normalize_inv hs X Ys H2 HYs).
  pose proof (norm2_nonneg hh X i) as Hl2.
  pose proof (norm2_congr hs hh X i (eq_sym Hrm)) as Hl2s.
  assert (denominator hh X i = Rmax (norm2 hh X i) (beta hh)) as Qh
    by (unfold denominator; now rewrite Hh).
  assert (denominator hs X i = norm2 hh X i + beta hh) as Qs
    by (unfold denominator; now rewrite Hsf, Hl2s, Hbeta).
  split; [split|].
  - intros Heq. destruct (Req_dec (norm2 hh X i) 0) as [Z|NZ]; [exact Z|].
    exfalso. apply NZ. unfold norm2. apply rsum_zero.
    intros j Hj. rewrite Hd in Hj.
    destruct (Req_dec (centered hh X i j) 0) as [-> | Hc]; [ring|].
    exfalso. specialize (Heq j Hj).
    rewrite !get2_normalize_spec in Heq by (rewrite ?Hn, ?Hd; assumption).
    rewrite <- (centered_congr hh hs X i j Hrm) in Heq.
    revert Heq. apply quotients_differ; [exact Hc | | |].
    + apply denominator_pos, Hb.
    + apply denominator_pos. now rewrite <- Hbeta.
    + rewrite Qh, Qs. unfold Rmax.
      destruct (Rle_dec (norm2 hh X i) (beta hh)); lra.
  - intros Z j Hj.
    rewrite !get2_normalize_spec by (rewrite ?Hn, ?Hd; assumption).
    rewrite <- (centered_congr hh hs X i j Hrm).
    assert (centered hh X i j = 0) as ->.
    { apply (rsum_squares_zero (dim X 1) (centered hh X i) Z).
      now rewrite Hd. }
    unfold Rdiv. ring.
  - intros Hge. split; [|exact Qs].
    rewrite Qh. now apply Rmax_left.
Qed.

(** For [l > 0] and [b >= 0], the gap between the two gains
    [1 / sqrt l] (hard) and [1 / sqrt (l + b)] (soft) is at most
    [b / (2 l sqrt l)]. *)
Lemma gain_gap (l b : R) :
  0 < l -> 0 <= b ->
  0 <= / sqrt l - / sqrt (l + b) <= b / (2 * l * sqrt l).
Proof.
  intros Hl Hb.
  pose proof (sqrt_lt_R0 l Hl) as Hs.
  assert (sqrt l <= sqrt (l + b)) as Hst by (apply sqrt_le_1_alt; lra).
  pose proof (sqrt_sqrt l (Rlt_le _ _ Hl)) as Ess.
  assert (0 <= l + b) as Hlb by lra.
  pose proof (sqrt_sqrt (l + b) Hlb) as Ett.
  set (s := sqrt l) in *. set (t := sqrt (l + b)) in *.
  assert (0 < t) as Ht by lra.
  assert (l = s * s) as El by lra.
  assert (b = t * t - s * s) as Eb by lra.
  split.
  - assert (/ s - / t = (t - s) * / (s * t)) as -> by (field; lra).
    apply Rmult_le_pos; [lra|].
    left. apply Rinv_0_lt_compat. nra.
  - enough (0 <= b / (2 * l * s) - (/ s - / t)) by lra.
    assert (b / (2 * l * s) - (/ s - / t)
            = (t - s) * ((t + s) * t - 2 * (s * s))
              * / (2 * (s * s) * s * t)) as ->
      by (rewrite El, Eb; field; lra).
    apply Rmult_le_pos.
    + apply Rmult_le_pos; [lra | nra].
    + left. apply Rinv_0_lt_compat.
      repeat apply Rmult_lt_0_compat; lra.
Qed.

(** On a row of squared norm [l2 >= beta > 0] the entries of the two
    outputs are within [|centred entry| * beta / (2 l2 sqrt l2)] of each
    other. *)
Lemma thresholding_gap
      (h : hyper) (X Yh Ys : ndarray) (n d i j : nat) (b : R) :
  shape X = [n; d] -> (i < n)%nat -> (j < d)%nat ->
  0 < b -> b <= norm2 h X i ->
  outcome (contrast_normalize (with_beta h true b) X) = inr Yh ->
  outcome (contrast_normalize (with_beta h false b) X) = inr Ys ->
  Rabs (get2 Yh i j - get2 Ys i j)
  <= Rabs (centered h X i j) * b
     / (2 * norm2 h X i * sqrt (norm2 h X i)).
Proof.
  intros Hs Hi Hj Hb Hge HYh HYs.
  destruct (dim_of_shape X n d Hs) as (Hn & Hd & H2).
  rewrite (contrast_normalize_inv _ X Yh H2 HYh).
  rewrite (contrast_normalize_inv _ X Ys H2 HYs).
  rewrite !get2_normalize_spec by (rewrite ?Hn, ?Hd; assumption).
  rewrite (centered_congr (with_beta h true b) h X i j eq_refl).
  rewrite (centered_congr (with_beta h false b) h X i j eq_refl).
  unfold denominator. cbn [with_beta hard_beta beta].
  rewrite (norm2_congr (with_beta h true b) h X i eq_refl).
  rewrite (norm2_congr (with_beta h false b) h X i eq_refl).
  rewrite Rmax_left by exact Hge.
  assert (0 < norm2 h X i) as Hl by lra.
  destruct (gain_gap (norm2 h X i) b Hl (Rlt_le _ _ Hb)) as [G0 G1].
  set (l := norm2 h X i) in *. set (c := centered h X i j).
  assert (c / sqrt l - c / sqrt (l + b)
          = c * (/ sqrt l - / sqrt (l + b))) as -> by (unfold Rdiv; ring).
  rewrite Rabs_mult, (Rabs_right (/ sqrt l - / sqrt (l + b))) by lra.
  assert (Rabs c * b / (2 * l * sqrt l)
          = Rabs c * (b / (2 * l * sqrt l))) as -> by (unfold Rdiv; ring).
  apply Rmult_le_compat_l; [apply Rabs_pos | exact G1].
Qed.

(** C7 (as amended).  Take any setting of [remove_mean], a batch and one
    of its rows, of centred squared norm [l2].  In exact arithmetic, for
    every [beta > 0] the outputs of [contrast_normalize] under hard and
    under soft thresholding agree on the row exactly when [l2 = 0]; when
    [l2 >= beta] the squared denominators are [l2] and [l2 + beta] and the
    entries of the two outputs differ by at most
    [|centred entry| * beta / (2 l2 sqrt l2)].  For a row with [l2 > 0]
    the two outputs therefore agree in the limit [beta -> 0]: every entry
    of their difference is below any [eps > 0] once [beta] is small
    enough. *)
Theorem thresholding_difference (h : hyper) (X : ndarray) (n d i : nat) :
  shape X = [n; d] ->
  (i < n)%nat ->
  (forall (b : R) (Yh Ys : ndarray),
      0 < b ->
      outcome (contrast_normalize (with_beta h true b) X) = inr Yh ->
      outcome (contrast_normalize (with_beta h false b) X) = inr Ys ->
      ((forall j, (j < d)%nat -> get2 Yh i j = get2 Ys i j)
       <-> norm2 h X i = 0) /\
      (b <= norm2 h X i ->
       denominator (with_beta h true b) X i = norm2 h X i /\
       denominator (with_beta h false b) X i = norm2 h X i + b /\
       forall j, (j < d)%nat ->
                 Rabs (get2 Yh i j - get2 Ys i j)
                 <= Rabs (centered h X i j) * b
                    / (2 * norm2 h X i * sqrt (norm2 h X i)))) /\
  (0 < norm2 h X i ->
   forall j, (j < d)%nat ->
   forall eps, 0 < eps ->
   exists delta, 0 < delta /\
     forall (b : R) (Yh Ys : ndarray),
       0 < b < delta ->
       outcome (contrast_normalize (with_beta h true b) X) = inr Yh ->
       outcome (contrast_normalize (with_beta h false b) X) = inr Ys ->
       Rabs (get2 Yh i j - get2 Ys i j) < eps).
Proof.
  intros Hs Hi. split.
  - intros b Yh Ys Hb HYh HYs.
    destruct (thresholding_rows (with_beta h true b) (with_beta h false b)
                X Yh Ys n d i eq_refl eq_refl eq_refl eq_refl Hb Hs
                HYh HYs Hi) as [Hiff Hden].
    rewrite (norm2_congr (with_beta h true b) h X i eq_refl) in Hiff, Hden.
    split; [exact Hiff|].
    intros Hge. destruct (Hden Hge) as [Qh Qs].
    split; [exact Qh|]. split; [exact Qs|].
    intros j Hj.
    now apply (thresholding_gap h X Yh Ys n d i j b).
  - intros Hl j Hj eps Heps.
    set (l := norm2 h X i) in *. set (c := centered h X i j).
    assert (0 < 2 * l * sqrt l) as HK
      by (pose proof (sqrt_lt_R0 l Hl); nra).
    set (K := 2 * l * sqrt l) in *.
    pose proof (Rabs_pos c) as Hc.
    assert (0 < eps * K / (Rabs c + 1)) as Hq.
    { unfold Rdiv. apply Rmult_lt_0_compat; [nra|].
      apply Rinv_0_lt_compat. lra. }
    exists (Rmin l (eps * K / (Rabs c + 1))). split.
    + now apply Rmin_glb_lt.
    + intros b Yh Ys [Hb Hlt] HYh HYs.
      assert (b < l) as Hbl
        by (eapply Rlt_le_trans; [exact Hlt | apply Rmin_l]).
      assert (b < eps * K / (Rabs c + 1)) as Hbq
        by (eapply Rlt_le_trans; [exact Hlt | apply Rmin_r]).
      apply Rle_lt_trans with (Rabs c * b / K).
      * apply (thresholding_gap h X Yh Ys n d i j b);
          try assumption. fold l. lra.
      * assert (b * (Rabs c + 1) < eps * K) as Hm.
        { apply (Rmult_lt_compat_r (Rabs c + 1)) in Hbq; [|lra].
          unfold Rdiv in Hbq.
          rewrite Rmult_assoc, Rinv_l, Rmult_1_r in Hbq by lra.
          exact Hbq. }
        apply (Rmult_lt_reg_r K); [exact HK|].
        unfold Rdiv. rewrite Rmult_assoc, Rinv_l, Rmult_1_r by lra.
        nra.
Qed.

Lemma thresholding_difference_witness :
  (forall (b : R) (Yh Ys : ndarray),
      0 < b ->
      outcome (contrast_normalize (with_beta hyper_hard true b) patch_3_4)
      = inr Yh ->
      outcome (contrast_normalize (with_beta hyper_hard false b) patch_3_4)
      = inr Ys ->
      ((forall j, (j < 2)%nat -> get2 Yh 0 j = get2 Ys 0 j)
       <-> norm2 hyper_hard patch_3_4 0 = 0) /\
      (b <= norm2 hyper_hard patch_3_4 0 ->
       denominator (with_beta hyper_hard true b) patch_3_4 0
       = norm2 hyper_hard patch_3_4 0 /\
       denominator (with_beta hyper_hard false b) patch_3_4 0
       = norm2 hyper_hard patch_3_4 0 + b /\
       forall j, (j < 2)%nat ->
                 Rabs (get2 Yh 0 j - get2 Ys 0 j)
                 <= Rabs (centered hyper_hard patch_3_4 0 j) * b
                    / (2 * norm2 hyper_hard patch_3_4 0
                       * sqrt (norm2 hyper_hard patch_3_4 0)))) /\
  (0 < norm2 hyper_hard patch_3_4 0 ->
   forall j, (j < 2)%nat ->
   forall eps, 0 < eps ->
   exists delta, 0 < delta /\
     forall (b : R) (Yh Ys : ndarray),
       0 < b < delta ->
       outcome (contrast_normalize (with_beta hyper_hard true b) patch_3_4)
       = inr Yh ->
       outcome (contrast_normalize (with_beta hyper_hard false b) patch_3_4)
       = inr Ys ->
       Rabs (get2 Yh 0 j - get2 Ys 0 j) < eps).
Proof.
  apply (thresholding_difference hyper_hard patch_3_4 1 2 0).
  - reflexivity.
  - lia.
Defined.

(** C7, as stated, fails: the row [(3, 4)] has squared norm 25, not below
    [beta = 1], and yet its normalised entries differ between hard and soft
    thresholding. *)
Lemma thresholding_counterexample :
  outcome (contrast_normalize hyper_hard patch_3_4)
  = inr (normalize_spec hyper_hard patch_3_4) /\
  outcome (contrast_normalize hyper_soft patch_3_4)
  = inr (normalize_spec hyper_soft patch_3_4) /\
  0 < beta hyper_hard /\
  beta hyper_hard <= norm2 hyper_hard patch_3_4 0 /\
  get2 (normalize_spec hyper_hard patch_3_4) 0 0
  <> get2 (normalize_spec hyper_soft patch_3_4) 0 0.
Proof.
  pose proof (norm2_patch_3_4 hyper_hard eq_refl) as Nh.
  pose proof (norm2_patch_3_4 hyper_soft eq_refl) as Ns.
  split; [apply contrast_normalize_returns;
          [reflexivity | right; unfold dim; simpl; lia]|].
  split; [apply contrast_normalize_returns;
          [reflexivity | right; unfold dim; simpl; lia]|].
  split; [simpl; lra|].
  split; [rewrite Nh; simpl; lra|].
  rewrite !get2_normalize_spec by (unfold dim; simpl; lia).
  assert (centered hyper_soft patch_3_4 0 0 = centered hyper_hard patch_3_4 0 0)
    as -> by reflexivity.
  apply quotients_differ.
  - unfold centered, row_mean, get2, dim. simpl. lra.
  - apply denominator_pos. simpl. lra.
  - apply denominator_pos. simpl. lra.
  - unfold denominator. rewrite Nh, Ns. simpl.
    rewrite Rmax_left by lra. lra.
Qed.

(* ================================================================== *)
(** ** The whitening matrix, entry by entry *)

Lemma whitening_matrix_entries (g : R) (D V : ndarray) (d : nat) :
  dim D 0 = d -> dim V 0 = d -> dim V 1 = d ->
  whitening_matrix g D V
  = tab2 d d (fun i j =>
                rsum d (fun k => sqrt (1 / (get1 D k + g))
                                 * get2 V i k * get2 V j k)).
Proof.
  intros HD HV0 HV1.
  unfold whitening_matrix, dot, mul_row, transpose,
    sqrt1, rdiv_scalar1, add_scalar1.
  dims. rewrite HD, HV0, HV1. apply tab2_ext. intros i j Hi Hj.
  apply rsum_ext. intros k Hk.
  rewrite !get2_tab2 by assumption. f_equal.
  rewrite !get1_tab1 by assumption. reflexivity.
Qed.

Lemma whitening_matrix_transpose (g : R) (D V : ndarray) (d : nat) :
  dim D 0 = d -> dim V 0 = d -> dim V 1 = d ->
  transpose (whitening_matrix g D V) = whitening_matrix g D V.
Proof.
  intros HD HV0 HV1.
  rewrite (whitening_matrix_entries g D V d HD HV0 HV1), transpose_tab2.
  apply tab2_ext. intros i j _ _. apply rsum_ext. intros k _. ring.
Qed.

(** The matrix computed by the code is V . diag(1 / sqrt(lambda + g)) . V^T. *)
Lemma whitening_matrix_spec (g : R) (D V : ndarray) (d : nat) :
  dim D 0 = d -> dim V 0 = d -> dim V 1 = d ->
  whitening_matrix g D V = whitening_spec g D V.
Proof.
  intros HD HV0 HV1.
  rewrite (whitening_matrix_entries g D V d HD HV0 HV1).
  unfold whitening_spec, dot, diag, transpose.
  dims. rewrite HD, HV0, HV1. apply tab2_ext. intros i j Hi Hj.
  apply rsum_ext. intros k Hk.
  rewrite !get2_tab2 by assumption.
  rewrite (rsum_ext d _
             (fun l => get2 V i l * (1 / sqrt (get1 D l + g))
                       * (if (l =? k)%nat then 1 else 0))).
  - rewrite rsum_delta by exact Hk.
    unfold Rdiv. rewrite !Rmult_1_l, sqrt_inv. ring.
  - intros l Hl. rewrite get2_tab2 by assumption.
    destruct (Nat.eqb_spec l k) as [->|_].
    + rewrite get1_tab1 by assumption. ring.
    + ring.
Qed.

(* ================================================================== *)
(** ** ZCA_whiten, statement by statement, and the claims about it *)

Lemma reshape_rows_flat (patches : ndarray) (n : nat) (rest : list nat) :
  shape patches = n :: rest -> (0 < n)%nat ->
  reshape_rows patches n = ret (flat_batch patches n rest).
Proof.
  intros Hs Hn. unfold reshape_rows, flat_batch. rewrite Hs.
  cbn [size_of fold_right].
  destruct (Nat.eqb_spec n 0) as [|_]; [lia|].
  rewrite (Nat.mul_comm n), Nat.Div0.mod_mul, Nat.div_mul by lia.
  reflexivity.
Qed.

Section Whitening.
(** Any eigensolver and any setting of the hyper-parameters. *)
Variable solver : eigensolver.
Variable h : hyper.

Lemma ZCA_whiten_outcome (patches : ndarray) (n : nat) (rest : list nat) :
  shape patches = n :: rest -> (0 < n)%nat ->
  outcome (ZCA_whiten solver h patches)
  = match outcome (contrast_normalize h (flat_batch patches n rest)) with
    | inl e => inl e
    | inr X =>
        let DV := eigh solver (covariance X) in
        inr [mean_and_std X; whitening_matrix (gamma h) (fst DV) (snd DV); X]
    end.
Proof.
  intros Hs Hn. unfold ZCA_whiten, len, astype_float64. rewrite Hs.
  rewrite outcome_bind. cbn [ret outcome snd].
  rewrite (reshape_rows_flat patches n rest Hs Hn).
  rewrite outcome_bind. cbn [ret outcome snd].
  rewrite outcome_bind.
  destruct (outcome (contrast_normalize h (flat_batch patches n rest)))
    as [e|X] eqn:HX; [reflexivity|].
  assert (X = normalize_spec h (flat_batch patches n rest)) as EX
    by (apply contrast_normalize_inv; [reflexivity | exact HX]).
  assert (shape_eqb (shape (sub_row X (mean_and_std X))) (shape X) = true)
    as ->.
  { rewrite EX. simpl. now rewrite !Nat.eqb_refl. }
  assert (dim (sub_row X (mean_and_std X)) 0 = dim X 0) as -> by reflexivity.
  fold (covariance X).
  destruct (eigh solver (covariance X)) as [D V].
  repeat (rewrite outcome_bind; cbn [emit assert ret outcome snd]).
  reflexivity.
Qed.

Lemma ZCA_whiten_inv (patches : ndarray) (r : list ndarray) :
  outcome (ZCA_whiten solver h patches) = inr r ->
  exists n rest X,
    shape patches = n :: rest /\ (0 < n)%nat /\
    outcome (contrast_normalize h (flat_batch patches n rest)) = inr X /\
    r = [mean_and_std X;
         whitening_matrix (gamma h) (fst (eigh solver (covariance X)))
                          (snd (eigh solver (covariance X)));
         X].
Proof.
  intros Hr. destruct (shape patches) as [|n rest] eqn:Hs.
  - unfold ZCA_whiten, len in Hr. rewrite Hs in Hr. discriminate.
  - destruct (Nat.eq_dec n 0) as [->|Hn].
    + unfold ZCA_whiten, len, reshape_rows in Hr. rewrite Hs in Hr.
      discriminate.
    + rewrite (ZCA_whiten_outcome patches n rest Hs) in Hr by lia.
      exists n, rest.
      destruct (outcome (contrast_normalize h (flat_batch patches n rest)))
        as [e|X]; [discriminate|].
      exists X. repeat split; [lia | congruence].
Qed.

Lemma eigh_dims (C : ndarray) :
  dim (fst (eigh solver C)) 0 = dim C 0 /\
  dim (snd (eigh solver C)) 0 = dim C 0 /\
  dim (snd (eigh solver C)) 1 = dim C 0.
Proof. unfold eigh. destruct (solver (dim C 0) (get2 C)). auto. Qed.

(** If the sample covariance of the normalised batch is [c I], every
    eigenvalue that comes with an eigendecomposition of it is [c], and the
    matrix that [ZCA_whiten] returns is [(1 / sqrt (c + gamma)) I]. *)
Lemma scaled_identity_whitening (patches M P X : ndarray) (c : R) :
  outcome (ZCA_whiten solver h patches) = inr [M; P; X] ->
  covariance X = scale2 c (identity (dim X 1)) ->
  eigen_decomposition (covariance X) (eigh solver (covariance X)) ->
  P = scale2 (1 / sqrt (c + gamma h)) (identity (dim X 1)).
Proof.
  intros Hr HC Heig.
  destruct (ZCA_whiten_inv patches _ Hr)
    as (n & rest & X' & _ & _ & _ & E).
  injection E as _ -> <-.
  destruct (eigh_dims (covariance X)) as (HD & HV0 & HV1).
  set (d := dim X 1) in *.
  assert (dim (covariance X) 0 = d) as Hd by reflexivity.
  rewrite Hd in HD, HV0, HV1.
  unfold eigen_decomposition in Heig. rewrite Hd in Heig.
  destruct (eigh solver (covariance X)) as [lam V]; simpl in *.
  destruct Heig as (Hcols & Hrows & Hev).
  (* orthonormal columns and rows, entry by entry *)
  assert (forall k, (k < d)%nat ->
                    rsum d (fun i => get2 V i k * get2 V i k) = 1) as Hcol.
  { intros k Hk.
    pose proof (f_equal (fun A => get2 A k k) Hcols) as Ek. simpl in Ek.
    rewrite get2_identity, Nat.eqb_refl in Ek by assumption.
    rewrite get2_dot in Ek by (unfold transpose; dims; lia).
    rewrite <- Ek. unfold transpose. dims. rewrite HV0.
    apply rsum_ext. intros i Hi.
    rewrite get2_tab2 by lia. reflexivity. }
  assert (forall i j, (i < d)%nat -> (j < d)%nat ->
                      rsum d (fun k => get2 V i k * get2 V j k)
                      = if (i =? j)%nat then 1 else 0) as Hrow.
  { intros i j Hi Hj.
    pose proof (f_equal (fun A => get2 A i j) Hrows) as Eij. simpl in Eij.
    rewrite get2_identity in Eij by assumption.
    rewrite get2_dot in Eij by (unfold transpose; dims; lia).
    rewrite <- Eij. rewrite HV1.
    apply rsum_ext. intros k Hk. unfold transpose.
    rewrite get2_tab2 by lia. reflexivity. }
  (* the eigenvalue equation against c I *)
  assert (forall i k, (i < d)%nat -> (k < d)%nat ->
                      c * get2 V i k = get1 lam k * get2 V i k) as Hfix.
  { intros i k Hi Hk.
    pose proof (f_equal (fun A => get2 A i k) Hev) as Eik. simpl in Eik.
    rewrite get2_dot in Eik by lia.
    unfold mul_row in Eik. rewrite get2_tab2 in Eik by lia.
    rewrite <- Eik. rewrite HC.
    change (scale2 c (identity d))
      with (tab2 d d (fun a b => c * get2 (identity d) a b)).
    dims.
    rewrite (rsum_ext d _
               (fun l => c * get2 V l k * (if (l =? i)%nat then 1 else 0))).
    - now rewrite rsum_delta.
    - intros l Hl.
      rewrite get2_tab2 by assumption. rewrite get2_identity by assumption.
      rewrite Nat.eqb_sym. ring. }
  assert (forall k, (k < d)%nat -> get1 lam k = c) as Hone.
  { intros k Hk.
    transitivity (get1 lam k * rsum d (fun i => get2 V i k * get2 V i k));
      [rewrite (Hcol k Hk); ring|].
    transitivity (c * rsum d (fun i => get2 V i k * get2 V i k));
      [|rewrite (Hcol k Hk); ring].
    rewrite <- !rsum_scal_l.
    apply rsum_ext. intros i Hi.
    replace (get1 lam k * (get2 V i k * get2 V i k))
      with (get1 lam k * get2 V i k * get2 V i k) by ring.
    rewrite <- (Hfix i k Hi Hk). ring. }
  rewrite (whitening_matrix_entries (gamma h) lam V d HD HV0 HV1).
  unfold scale2, identity. dims. apply tab2_ext. intros i j Hi Hj.
  rewrite get2_tab2 by assumption. rewrite <- (Hrow i j Hi Hj).
  rewrite <- rsum_scal_l. apply rsum_ext. intros k Hk.
  rewrite (Hone k Hk). unfold Rdiv. rewrite !Rmult_1_l, sqrt_inv. ring.
Qed.

(** C6 (as amended).  [ZCA_whiten] takes the covariance of the batch it
    has contrast-normalised, not of the batch it is given.  In exact
    arithmetic, for every batch of at least two patches whose normalised
    form [X] has sample covariance [c I] (with the N - 1 divisor,
    [c >= 0]) and every [gamma > 0], [ZCA_whiten] returns the whitening
    matrix [(1 / sqrt (c + gamma)) I], provided the eigensolver returns an
    eigendecomposition of that covariance. *)
Theorem whitening_of_identity_covariance (patches M P X : ndarray) (c : R) :
  0 < gamma h ->
  0 <= c ->
  (2 <= dim X 0)%nat ->
  outcome (ZCA_whiten solver h patches) = inr [M; P; X] ->
  covariance X = scale2 c (identity (dim X 1)) ->
  eigen_decomposition (covariance X) (eigh solver (covariance X)) ->
  P = scale2 (1 / sqrt (c + gamma h)) (identity (dim X 1)).
Proof. intros _ _ _. apply scaled_identity_whitening. Qed.

End Whitening.

(** ** The sample batch of three unit patches *)

(** Under hard thresholding at [beta = 1] the patches [1], [-1] and [0]
    are left as they are. *)
Lemma normalize_patches_unit :
  normalize_spec hyper_hard patches_unit = patches_unit.
Proof.
  rewrite <- (tab2_get2 3 1 patches_unit) at 2
    by (reflexivity || (unfold well_formed; reflexivity)).
  unfold normalize_spec. apply tab2_ext. intros i j Hi Hj.
  assert (j = 0%nat) as -> by (unfold dim in Hj; simpl in Hj; lia).
  assert (denominator hyper_hard patches_unit i = 1) as ->.
  { unfold denominator, norm2, centered, row_mean, get2, dim. simpl.
    destruct i as [|[|[|i]]]; simpl;
      try (rewrite Rmax_right by lra; reflexivity).
    unfold dim in Hi; simpl in Hi; lia. }
  rewrite sqrt_1. unfold centered, row_mean. simpl. lra.
Qed.

Lemma ZCA_whiten_patches_unit :
  outcome (ZCA_whiten diagonal_solver hyper_hard patches_unit)
  = inr [mean_and_std patches_unit; whitening_unit; patches_unit].
Proof.
  rewrite (ZCA_whiten_outcome diagonal_solver hyper_hard patches_unit 3 [1%nat])
    by (reflexivity || lia).
  change (flat_batch patches_unit 3 [1%nat]) with patches_unit.
  rewrite contrast_normalize_returns
    by (reflexivity || (right; unfold dim; simpl; lia)).
  rewrite normalize_patches_unit. reflexivity.
Qed.



(* ================================================================== *)
(** * Further properties of the notebook's code *)

(** ** More about sums *)

Lemma rsum_plus (n : nat) (f g : nat -> R) :
  rsum n (fun k => f k + g k) = rsum n f + rsum n g.
Proof. induction n as [|n IH]; simpl; [ring | rewrite IH; ring]. Qed.

Lemma rsum_const (n : nat) (c : R) : rsum n (fun _ => c) = INR n * c.
Proof.
  induction n as [|n IH]; [simpl; ring|].
  rewrite S_INR. simpl. rewrite IH. ring.
Qed.

Lemma rsum_minus_const (n : nat) (f : nat -> R) (c : R) :
  rsum n (fun k => f k - c) = rsum n f - INR n * c.
Proof.
  induction n as [|n IH]; [simpl; ring|].
  rewrite S_INR. simpl. rewrite IH. ring.
Qed.

(** The order of two nested sums does not matter. *)
Lemma rsum_swap (n m : nat) (f : nat -> nat -> R) :
  rsum n (fun i => rsum m (fun j => f i j))
  = rsum m (fun j => rsum n (fun i => f i j)).
Proof.
  induction n as [|n IH]; simpl.
  - symmetry. apply rsum_zero. reflexivity.
  - rewrite IH, <- rsum_plus. reflexivity.
Qed.

(** Subtracting its mean from a non-empty row leaves a row that sums to
    zero; so does an empty row. *)
(** ** contrast_normalize: failures and diagnostics *)

Lemma contrast_normalize_not_flat (h : hyper) (X : ndarray) :
  ndim X <> 2%nat ->
  contrast_normalize h X
  = ([], inl (TypeError "contrast_normalize requires flat patches")).
Proof.
  intros Hne. unfold contrast_normalize.
  destruct (Nat.eqb_spec (ndim X) 2); [contradiction | reflexivity].
Qed.

(** X1.  [contrast_normalize] raises [IndexError] exactly on a
    two-dimensional array without columns when [remove_mean] is false. *)
Theorem contrast_normalize_index_error (h : hyper) (X : ndarray) :
  outcome (contrast_normalize h X) = inl IndexError
  <-> ndim X = 2%nat /\ dim X 1 = 0%nat /\ remove_mean h = false.
Proof.
  destruct (Nat.eq_dec (ndim X) 2) as [H2|Hne].
  - destruct (contrast_normalize_cases h X H2)
      as [(E & Hr & Hd) | (Hc & l2 & E)]; rewrite E; simpl.
    + tauto.
    + split; [discriminate|].
      intros (_ & Hd & Hr). destruct Hc; [congruence | lia].
  - rewrite (contrast_normalize_not_flat h X Hne). simpl.
    split; [discriminate | tauto].
Qed.

(** X2.  When [contrast_normalize] returns, its diagnostics are one
    figure, titled, holding the histogram of the squared norms of the
    centred rows, one per patch and in the order of the patches. *)
Theorem contrast_normalize_histogram (h : hyper) (X Y : ndarray) :
  ndim X = 2%nat ->
  outcome (contrast_normalize h X) = inr Y ->
  trace (contrast_normalize h X)
  = [Figure; Title "l2 of image patches";
     Hist (map (norm2 h X) (seq 0 (dim X 0)))].
Proof.
  intros H2 HY. unfold contrast_normalize in *. rewrite H2 in *.
  simpl negb in *. cbv iota in *.
  destruct (patch_means_cases h X) as [(E & _) | (xm & E & _ & _ & Hm)];
    rewrite E in *; [discriminate|].
  cbn [bind emit ret app trace fst]. do 4 f_equal.
  unfold sum_axis1, tab1. cbn [data].
  change (dim (mul2 (sub_col X xm) (sub_col X xm)) 0) with (dim X 0).
  apply map_ext_in. intros i Hi. apply in_seq in Hi.
  destruct Hi as [_ Hi]. rewrite Nat.add_0_l in Hi.
  rewrite <- (code_l2 h X xm Hm i Hi).
  unfold sum_axis1. rewrite get1_tab1 by exact Hi. reflexivity.
Qed.

Lemma contrast_normalize_histogram_witness :
  trace (contrast_normalize hyper_hard patch_3_4)
  = [Figure; Title "l2 of image patches";
     Hist (map (norm2 hyper_hard patch_3_4) (seq 0 (dim patch_3_4 0)))].
Proof.
  apply (contrast_normalize_histogram hyper_hard patch_3_4
           (normalize_spec hyper_hard patch_3_4)).
  - reflexivity.
  - apply contrast_normalize_returns;
      [reflexivity | right; unfold dim; simpl; lia].
Defined.

(** ** contrast_normalize: patches of low contrast *)

Lemma norm2_patch_0_0 (h : hyper) :
  remove_mean h = false -> norm2 h patch_0_0 0 = 0.
Proof.
  intros Hr. unfold norm2, centered, row_mean, get2, dim. rewrite Hr.
  simpl. lra.
Qed.

Lemma centered_scaled (h : hyper) (X X' : ndarray) (d i : nat) (g : R) :
  dim X 1 = d -> dim X' 1 = d ->
  (forall j, (j < d)%nat -> get2 X' i j = g * get2 X i j) ->
  forall j, (j < d)%nat -> centered h X' i j = g * centered h X i j.
Proof.
  intros Hd Hd' Hg j Hj. unfold centered, row_mean.
  rewrite Hd, Hd', (Hg j Hj).
  destruct (remove_mean h); [|ring].
  rewrite (rsum_ext d (get2 X' i) (fun j => g * get2 X i j)) by exact Hg.
  rewrite rsum_scal_l. unfold Rdiv. ring.
Qed.

(** X6.  Under [hard_beta] a patch whose centred squared norm does not
    exceed [beta] is divided by the constant [sqrt beta], whatever its own
    norm: every entry of its output row is the centred entry over
    [sqrt beta]. *)
Theorem hard_beta_low_contrast (h : hyper) (X Y : ndarray) (n d i : nat) :
  hard_beta h = true ->
  0 < beta h ->
  shape X = [n; d] ->
  outcome (contrast_normalize h X) = inr Y ->
  (i < n)%nat ->
  norm2 h X i <= beta h ->
  forall j, (j < d)%nat -> get2 Y i j = centered h X i j / sqrt (beta h).
Proof.
  intros Hh Hb Hs HY Hi Hle j Hj.
  destruct (dim_of_shape X n d Hs) as (Hn & Hd & H2).
  rewrite (contrast_normalize_inv h X Y H2 HY).
  assert (denominator h X i = beta h) as Hq
    by (unfold denominator; rewrite Hh; now apply Rmax_right).
  rewrite get2_normalize_spec by (rewrite ?Hn, ?Hd; assumption).
  now rewrite Hq.
Qed.

Lemma hard_beta_low_contrast_witness :
  get2 (normalize_spec hyper_hard patch_0_0) 0 1
  = centered hyper_hard patch_0_0 0 1 / sqrt (beta hyper_hard).
Proof.
  apply (hard_beta_low_contrast hyper_hard patch_0_0 _ 1 2 0);
    [| | | | | |lia].
  - reflexivity.
  - simpl. lra.
  - reflexivity.
  - apply contrast_normalize_returns;
      [reflexivity | right; unfold dim; simpl; lia].
  - lia.
  - rewrite norm2_patch_0_0 by reflexivity. simpl. lra.
Defined.

(* ================================================================== *)
(** ** ZCA_whiten: failures *)

(** X10.  [ZCA_whiten] fails before any diagnostic on three kinds of
    input: a 0-d array has no [len] ([TypeError]); an array with no patch
    cannot be reshaped to [(0, -1)] ([ValueError]); patches without any
    entry, when [remove_mean] is false, meet the [IndexError] of
    [contrast_normalize]. *)
Theorem ZCA_whiten_failures (solver : eigensolver) (h : hyper)
        (patches : ndarray) :
  (shape patches = [] ->
   ZCA_whiten solver h patches
   = ([], inl (TypeError "len() of unsized object"))) /\
  (forall rest, shape patches = 0%nat :: rest ->
                ZCA_whiten solver h patches = ([], inl ValueError)) /\
  (forall n rest, shape patches = n :: rest -> (0 < n)%nat ->
                  size_of rest = 0%nat -> remove_mean h = false ->
                  ZCA_whiten solver h patches = ([], inl IndexError)).
Proof.
  split; [|split].
  - intros Hs. unfold ZCA_whiten, len. rewrite Hs. reflexivity.
  - intros rest Hs. unfold ZCA_whiten, len, reshape_rows. rewrite Hs.
    reflexivity.
  - intros n rest Hs Hn Hz Hr. unfold ZCA_whiten, len, astype_float64.
    rewrite Hs. cbn [bind ret].
    rewrite (reshape_rows_flat patches n rest Hs Hn). cbn [bind ret].
    destruct (contrast_normalize_cases h (flat_batch patches n rest) eq_refl)
      as [(E & _) | ([Hc | Hc] & _)].
    + rewrite E. reflexivity.
    + congruence.
    + unfold flat_batch, dim in Hc. simpl in Hc. lia.
Qed.

(* ================================================================== *)
(** ** Sums of products *)

Lemma rsum_mul_sum (n m : nat) (f g : nat -> R) :
  rsum n f * rsum m g = rsum n (fun i => rsum m (fun j => f i * g j)).
Proof.
  rewrite <- rsum_scal_r. apply rsum_ext. intros i _.
  now rewrite rsum_scal_l.
Qed.

(** The quadratic form of a Gram matrix is a sum of squares. *)
Lemma gram_quadratic_form (n d : nat) (A : nat -> nat -> R) (v : nat -> R) :
  rsum d (fun a => rsum d (fun b =>
            v a * rsum n (fun r => A r a * A r b) * v b))
  = rsum n (fun r => rsum d (fun a => A r a * v a)
                     * rsum d (fun a => A r a * v a)).
Proof.
  symmetry.
  rewrite (rsum_ext n _
             (fun r => rsum d (fun a => rsum d (fun b =>
                         A r a * v a * (A r b * v b)))))
    by (intros r _; apply rsum_mul_sum).
  rewrite (rsum_swap n d). apply rsum_ext. intros a _.
  rewrite (rsum_swap n d). apply rsum_ext. intros b _.
  rewrite <- rsum_scal_l, <- rsum_scal_r.
  apply rsum_ext. intros r _. ring.
Qed.

(* ================================================================== *)
(** ** ZCA_whiten: the whitening matrix *)

Lemma eigen_decomposition_entries (C lam V : ndarray) (d : nat) :
  dim C 0 = d -> dim C 1 = d -> dim V 0 = d -> dim V 1 = d ->
  eigen_decomposition C (lam, V) ->
  (forall k l, (k < d)%nat -> (l < d)%nat ->
               rsum d (fun a => get2 V a k * get2 V a l)
               = if (k =? l)%nat then 1 else 0) /\
  (forall i j, (i < d)%nat -> (j < d)%nat ->
               rsum d (fun k => get2 V i k * get2 V j k)
               = if (i =? j)%nat then 1 else 0) /\
  (forall a k, (a < d)%nat -> (k < d)%nat ->
               rsum d (fun b => get2 C a b * get2 V b k)
               = get1 lam k * get2 V a k).
Proof.
  intros HC0 HC1 HV0 HV1 (Hcols & Hrows & Hev). rewrite HC0 in *.
  split; [|split].
  - intros k l Hk Hl.
    pose proof (f_equal (fun A => get2 A k l) Hcols) as E. simpl in E.
    rewrite get2_identity in E by assumption.
    rewrite get2_dot in E by (unfold transpose; dims; lia).
    rewrite <- E. unfold transpose. dims. rewrite HV0.
    apply rsum_ext. intros a Ha. rewrite get2_tab2 by lia. reflexivity.
  - intros i j Hi Hj.
    pose proof (f_equal (fun A => get2 A i j) Hrows) as E. simpl in E.
    rewrite get2_identity in E by assumption.
    rewrite get2_dot in E by (unfold transpose; dims; lia).
    rewrite <- E, HV1. apply rsum_ext. intros k Hk. unfold transpose.
    rewrite get2_tab2 by lia. reflexivity.
  - intros a k Ha Hk.
    pose proof (f_equal (fun A => get2 A a k) Hev) as E. simpl in E.
    rewrite get2_dot in E by lia.
    unfold mul_row in E. rewrite get2_tab2 in E by lia.
    rewrite <- E, HC1. reflexivity.
Qed.

(** The entries of the sample covariance: second moments of the centred
    columns over N - 1. *)
Lemma covariance_entries (X : ndarray) (i l : nat) :
  (i < dim X 1)%nat -> (l < dim X 1)%nat ->
  get2 (covariance X) i l
  = rsum (dim X 0)
         (fun r => get2 (sub_row X (mean_and_std X)) r i
                   * get2 (sub_row X (mean_and_std X)) r l)
    / INR (dim X 0 - 1).
Proof.
  intros Hi Hl. unfold covariance, div_scalar2.
  set (Xc := sub_row X (mean_and_std X)).
  change (dim (dot (transpose Xc) Xc) 0) with (dim X 1).
  change (dim (dot (transpose Xc) Xc) 1) with (dim X 1).
  rewrite get2_tab2 by assumption. f_equal.
  rewrite get2_dot by assumption.
  change (dim (transpose Xc) 1) with (dim X 0).
  apply rsum_ext. intros r Hr. unfold transpose.
  change (dim Xc 1) with (dim X 1). change (dim Xc 0) with (dim X 0).
  rewrite get2_tab2 by assumption. reflexivity.
Qed.

Section WhiteningMatrix.
Variable solver : eigensolver.
Variable h : hyper.
Variables patches M P X : ndarray.
Hypothesis returned :
  outcome (ZCA_whiten solver h patches) = inr [M; P; X].

Let d : nat := dim X 1.
Let lam : ndarray := fst (eigh solver (covariance X)).
Let V : ndarray := snd (eigh solver (covariance X)).
Let w (k : nat) : R := sqrt (1 / (get1 lam k + gamma h)).

Lemma returned_matrix :
  P = tab2 d d (fun i j => rsum d (fun k => w k * get2 V i k * get2 V j k)).
Proof.
  destruct (ZCA_whiten_inv solver h patches _ returned)
    as (n & rest & X' & _ & _ & _ & E).
  injection E as _ -> <-.
  destruct (eigh_dims solver (covariance X)) as (HD & HV0 & HV1).
  now apply whitening_matrix_entries.
Qed.

Lemma returned_matrix_dims : dim P 0 = d /\ dim P 1 = d.
Proof. rewrite returned_matrix. split; reflexivity. Qed.

Hypothesis decomposed :
  eigen_decomposition (covariance X) (eigh solver (covariance X)).
Hypothesis two_patches : (2 <= dim X 0)%nat.

Lemma decomposed_entries :
  (forall k l, (k < d)%nat -> (l < d)%nat ->
               rsum d (fun a => get2 V a k * get2 V a l)
               = if (k =? l)%nat then 1 else 0) /\
  (forall i j, (i < d)%nat -> (j < d)%nat ->
               rsum d (fun k => get2 V i k * get2 V j k)
               = if (i =? j)%nat then 1 else 0) /\
  (forall a k, (a < d)%nat -> (k < d)%nat ->
               rsum d (fun b => get2 (covariance X) a b * get2 V b k)
               = get1 lam k * get2 V a k).
Proof.
  destruct (eigh_dims solver (covariance X)) as (HD & HV0 & HV1).
  apply eigen_decomposition_entries; try assumption; try reflexivity.
  unfold lam, V. now destruct (eigh solver (covariance X)).
Qed.

(** The eigenvalues that come with an eigendecomposition of the sample
    covariance are not negative. *)
Lemma eigenvalues_nonneg (k : nat) : (k < d)%nat -> 0 <= get1 lam k.
Proof.
  intros Hk. destruct decomposed_entries as (Hcols & _ & Hev).
  set (Xc := sub_row X (mean_and_std X)).
  assert (0 < INR (dim X 0 - 1)) as Hc
    by (apply lt_0_INR; lia).
  assert (get1 lam k
          = rsum (dim X 0)
                 (fun r => rsum d (fun a => get2 Xc r a * get2 V a k)
                           * rsum d (fun a => get2 Xc r a * get2 V a k))
            / INR (dim X 0 - 1)) as ->.
  { rewrite <- (gram_quadratic_form (dim X 0) d (get2 Xc)
                  (fun a => get2 V a k)).
    transitivity (get1 lam k * rsum d (fun a => get2 V a k * get2 V a k));
      [rewrite (Hcols k k Hk Hk), Nat.eqb_refl; ring|].
    rewrite <- rsum_scal_l. unfold Rdiv. rewrite <- rsum_scal_r.
    apply rsum_ext. intros a Ha.
    transitivity (get2 V a k * (get1 lam k * get2 V a k)); [ring|].
    rewrite <- (Hev a k Ha Hk), <- rsum_scal_l, <- rsum_scal_r.
    apply rsum_ext. intros b Hb.
    rewrite (covariance_entries X a b Ha Hb). fold Xc.
    unfold Rdiv. ring. }
  apply Rmult_le_pos; [|left; now apply Rinv_0_lt_compat].
  apply rsum_nonneg. intros r _. nra.
Qed.
End WhiteningMatrix.

(** C2 (as amended).  In exact arithmetic, for every batch whose
    normalised form [X] holds at least two patches and every [gamma > 0],
    if the eigensolver returns an eigendecomposition [(lambda, V)] of the
    sample covariance of [X], then every [lambda + gamma] of which
    [ZCA_whiten] takes the inverse and the square root is positive, the
    matrix P it returns equals V . diag(1 / sqrt(lambda + gamma)) . V^T,
    and P is symmetric. *)
Theorem whitening_matrix_symmetric
        (solver : eigensolver) (h : hyper) (patches M P X : ndarray) :
  0 < gamma h ->
  (2 <= dim X 0)%nat ->
  outcome (ZCA_whiten solver h patches) = inr [M; P; X] ->
  eigen_decomposition (covariance X) (eigh solver (covariance X)) ->
  (forall k, (k < dim X 1)%nat ->
             0 < get1 (fst (eigh solver (covariance X))) k + gamma h) /\
  P = whitening_spec (gamma h) (fst (eigh solver (covariance X)))
                     (snd (eigh solver (covariance X))) /\
  transpose P = P.
Proof.
  intros Hg HN Hr Heig. split.
  - intros k Hk.
    pose proof (eigenvalues_nonneg solver h X Heig HN k Hk). lra.
  - destruct (ZCA_whiten_inv solver h patches _ Hr)
      as (n & rest & X' & _ & _ & _ & E).
    injection E as _ -> <-.
    destruct (eigh_dims solver (covariance X)) as (HD & HV0 & HV1).
    split.
    + now apply whitening_matrix_spec with (d := dim (covariance X) 0).
    + now apply whitening_matrix_transpose with (d := dim (covariance X) 0).
Qed.

(** ** The sample batches of two features *)

(** Under hard thresholding at [beta = 1] the patches of [rotation_batch],
    of squared norms 1 and 1/4, are left as they are. *)
Lemma normalize_rotation_batch :
  normalize_spec hyper_hard rotation_batch = rotation_batch.
Proof.
  rewrite <- (tab2_get2 4 2 rotation_batch) at 2
    by (reflexivity || (unfold well_formed; reflexivity)).
  unfold normalize_spec. apply tab2_ext. intros i j Hi Hj.
  change (dim rotation_batch 0) with 4%nat in Hi.
  change (dim rotation_batch 1) with 2%nat in Hj.
  assert (denominator hyper_hard rotation_batch i = 1) as ->.
  { unfold denominator, norm2, centered, row_mean, get2, dim. simpl.
    destruct i as [|[|[|[|i]]]]; [| | | |lia]; simpl;
      rewrite Rmax_right by lra; reflexivity. }
  rewrite sqrt_1. unfold centered, row_mean. simpl. lra.
Qed.

Lemma ZCA_whiten_rotation_batch :
  outcome (ZCA_whiten rotation_solver hyper_hard rotation_batch)
  = inr [mean_and_std rotation_batch; whitening_rotation; rotation_batch].
Proof.
  rewrite (ZCA_whiten_outcome rotation_solver hyper_hard rotation_batch
             4 [2%nat]) by (reflexivity || lia).
  change (flat_batch rotation_batch 4 [2%nat]) with rotation_batch.
  rewrite contrast_normalize_returns
    by (reflexivity || (right; unfold dim; simpl; lia)).
  rewrite normalize_rotation_batch. reflexivity.
Qed.

Lemma get2_covariance_rotation_batch (i j : nat) :
  (i < 2)%nat -> (j < 2)%nat ->
  get2 (covariance rotation_batch) i j
  = match i, j with
    | O, O => 26 / 75
    | O, _ => 6 / 25
    | _, O => 6 / 25
    | _, _ => 73 / 150
    end.
Proof.
  intros Hi Hj.
  rewrite covariance_entries by (unfold dim; simpl; lia).
  unfold sub_row, mean_and_std.
  change (dim rotation_batch 0) with 4%nat.
  change (dim rotation_batch 1) with 2%nat.
  destruct i as [|[|i]]; [| |lia]; destruct j as [|[|j]]; [| |lia| | |lia];
    unfold get2, get1, dim; simpl; field.
Qed.

Lemma decomposition_rotation_batch :
  eigen_decomposition (covariance rotation_batch)
                      (eigh rotation_solver (covariance rotation_batch)).
Proof.
  unfold eigen_decomposition, eigh, rotation_solver.
  change (dim (covariance rotation_batch) 0) with 2%nat.
  split; [|split].
  - unfold dot, transpose, identity. dims.
    apply tab2_ext. intros i j Hi Hj.
    destruct i as [|[|i]]; [| |lia]; destruct j as [|[|j]]; [| |lia| | |lia];
      cbn [rsum]; rewrite !get2_tab2 by lia; simpl; field.
  - unfold dot, transpose, identity. dims.
    apply tab2_ext. intros i j Hi Hj.
    destruct i as [|[|i]]; [| |lia]; destruct j as [|[|j]]; [| |lia| | |lia];
      cbn [rsum]; rewrite !get2_tab2 by lia; simpl; field.
  - unfold dot, mul_row. dims.
    change (dim (covariance rotation_batch) 0) with 2%nat.
    change (dim (covariance rotation_batch) 1) with 2%nat.
    apply tab2_ext. intros i j Hi Hj.
    destruct i as [|[|i]]; [| |lia]; destruct j as [|[|j]]; [| |lia| | |lia];
      cbn [rsum];
      rewrite !get2_covariance_rotation_batch, !get2_tab2, !get1_tab1 by lia;
      field.
Qed.

Lemma whitening_matrix_symmetric_witness :
  (forall k, (k < dim rotation_batch 1)%nat ->
             0 < get1 (fst (eigh rotation_solver
                              (covariance rotation_batch))) k
                 + gamma hyper_hard) /\
  whitening_rotation
  = whitening_spec (gamma hyper_hard)
      (fst (eigh rotation_solver (covariance rotation_batch)))
      (snd (eigh rotation_solver (covariance rotation_batch))) /\
  transpose whitening_rotation = whitening_rotation.
Proof.
  apply (whitening_matrix_symmetric rotation_solver hyper_hard rotation_batch
           (mean_and_std rotation_batch) _ rotation_batch).
  - simpl. lra.
  - unfold dim. simpl. lia.
  - exact ZCA_whiten_rotation_batch.
  - exact decomposition_rotation_batch.
Defined.

(** Under hard thresholding at [beta = 1] the four patches of norm 2 of
    [cross_batch] are brought to norm 1 and the null patches stay null. *)
Lemma denominator_cross_batch (i : nat) :
  (i < 9)%nat ->
  denominator hyper_hard cross_batch i = if (i <? 4)%nat then 4 else 1.
Proof.
  intros Hi. unfold denominator, norm2, centered, row_mean, get2, dim.
  do 9 (destruct i as [|i];
        [simpl; (rewrite Rmax_left by lra) || (rewrite Rmax_right by lra);
         lra|]).
  lia.
Qed.

Lemma normalize_cross_batch :
  normalize_spec hyper_hard cross_batch = cross_unit.
Proof.
  rewrite <- (tab2_get2 9 2 cross_unit)
    by (reflexivity || (unfold well_formed; reflexivity)).
  unfold normalize_spec. apply tab2_ext. intros i j Hi Hj.
  change (dim cross_batch 0) with 9%nat in Hi.
  change (dim cross_batch 1) with 2%nat in Hj.
  rewrite (denominator_cross_batch i Hi).
  assert (sqrt 4 = 2) as E4
    by (replace 4 with (2 * 2) by lra; apply sqrt_square; lra).
  unfold centered, row_mean, get2, dim.
  do 9 (destruct i as [|i];
        [destruct j as [|[|j]]; [| |lia]; simpl;
         rewrite ?E4, ?sqrt_1; lra|]).
  lia.
Qed.

Lemma get2_covariance_cross (i j : nat) :
  (i < 2)%nat -> (j < 2)%nat ->
  get2 (covariance cross_batch) i j = (if (i =? j)%nat then 1 else 0) /\
  get2 (covariance cross_unit) i j = 1 / 4 * (if (i =? j)%nat then 1 else 0).
Proof.
  intros Hi Hj.
  rewrite !covariance_entries by (unfold dim; simpl; lia).
  unfold sub_row, mean_and_std.
  change (dim cross_batch 0) with 9%nat.
  change (dim cross_batch 1) with 2%nat.
  change (dim cross_unit 0) with 9%nat.
  change (dim cross_unit 1) with 2%nat.
  destruct i as [|[|i]]; [| |lia]; destruct j as [|[|j]]; [| |lia| | |lia];
    unfold get2, get1, dim; simpl; split; field.
Qed.

Lemma covariance_cross_batch : covariance cross_batch = identity 2.
Proof.
  unfold identity.
  rewrite <- (tab2_get2 2 2 (covariance cross_batch))
    by (reflexivity || apply well_formed_tab2).
  apply tab2_ext. intros i j Hi Hj.
  apply (get2_covariance_cross i j Hi Hj).
Qed.

Lemma covariance_cross_unit :
  covariance cross_unit = scale2 (1 / 4) (identity (dim cross_unit 1)).
Proof.
  change (scale2 (1 / 4) (identity (dim cross_unit 1)))
    with (tab2 2 2 (fun i j => 1 / 4 * get2 (identity 2) i j)).
  rewrite <- (tab2_get2 2 2 (covariance cross_unit))
    by (reflexivity || apply well_formed_tab2).
  apply tab2_ext. intros i j Hi Hj.
  rewrite get2_identity by assumption.
  apply (get2_covariance_cross i j Hi Hj).
Qed.

Lemma decomposition_cross_unit :
  eigen_decomposition (covariance cross_unit)
                      (eigh diagonal_solver (covariance cross_unit)).
Proof.
  unfold eigen_decomposition, eigh, diagonal_solver.
  change (dim (covariance cross_unit) 0) with 2%nat.
  split; [|split].
  - unfold dot, transpose, identity. dims.
    apply tab2_ext. intros i j Hi Hj.
    destruct i as [|[|i]]; [| |lia]; destruct j as [|[|j]]; [| |lia| | |lia];
      cbn [rsum]; rewrite !get2_tab2 by lia; simpl; ring.
  - unfold dot, transpose, identity. dims.
    apply tab2_ext. intros i j Hi Hj.
    destruct i as [|[|i]]; [| |lia]; destruct j as [|[|j]]; [| |lia| | |lia];
      cbn [rsum]; rewrite !get2_tab2 by lia; simpl; ring.
  - unfold dot, mul_row. dims.
    change (dim (covariance cross_unit) 0) with 2%nat.
    change (dim (covariance cross_unit) 1) with 2%nat.
    apply tab2_ext. intros i j Hi Hj.
    destruct i as [|[|i]]; [| |lia]; destruct j as [|[|j]]; [| |lia| | |lia];
      cbn [rsum];
      rewrite !get2_tab2, !get1_tab1 by lia;
      repeat match goal with
             | |- context [get2 (covariance cross_unit) ?a ?b] =>
                 rewrite (proj2 (get2_covariance_cross a b
                                   ltac:(lia) ltac:(lia)))
             end;
      simpl; field.
Qed.

Lemma ZCA_whiten_cross_batch :
  outcome (ZCA_whiten diagonal_solver hyper_hard cross_batch)
  = inr [mean_and_std cross_unit; whitening_cross; cross_unit].
Proof.
  rewrite (ZCA_whiten_outcome diagonal_solver hyper_hard cross_batch
             9 [2%nat]) by (reflexivity || lia).
  change (flat_batch cross_batch 9 [2%nat]) with cross_batch.
  rewrite contrast_normalize_returns
    by (reflexivity || (right; unfold dim; simpl; lia)).
  rewrite normalize_cross_batch. reflexivity.
Qed.

Lemma whitening_of_identity_covariance_witness :
  whitening_cross
  = scale2 (1 / sqrt (1 / 4 + gamma hyper_hard))
           (identity (dim cross_unit 1)).
Proof.
  apply (whitening_of_identity_covariance diagonal_solver hyper_hard
           cross_batch (mean_and_std cross_unit) _ cross_unit (1 / 4)).
  - simpl. lra.
  - lra.
  - unfold dim. simpl. lia.
  - exact ZCA_whiten_cross_batch.
  - exact covariance_cross_unit.
  - exact decomposition_cross_unit.
Defined.

(** C6, as stated, fails: the sample covariance of [cross_batch] is the
    identity, and at [gamma = 1] the whitening matrix that [ZCA_whiten]
    returns for it is (1 / sqrt(1/4 + 1)) I, not (1 / sqrt(1 + 1)) I: the
    covariance that is decomposed is that of the normalised batch, here
    I / 4, and the eigensolver is right on it. *)
Lemma whitening_of_identity_covariance_counterexample :
  covariance cross_batch = identity 2 /\
  0 < gamma hyper_hard /\
  outcome (ZCA_whiten diagonal_solver hyper_hard cross_batch)
  = inr [mean_and_std cross_unit; whitening_cross; cross_unit] /\
  eigen_decomposition (covariance cross_unit)
                      (eigh diagonal_solver (covariance cross_unit)) /\
  whitening_cross = scale2 (1 / sqrt (1 / 4 + 1)) (identity 2) /\
  whitening_cross
  <> scale2 (1 / sqrt (1 + gamma hyper_hard)) (identity 2).
Proof.
  assert (whitening_cross = scale2 (1 / sqrt (1 / 4 + 1)) (identity 2)) as E.
  { apply (scaled_identity_whitening diagonal_solver hyper_hard cross_batch
             (mean_and_std cross_unit) _ cross_unit (1 / 4)).
    - exact ZCA_whiten_cross_batch.
    - exact covariance_cross_unit.
    - exact decomposition_cross_unit. }
  split; [exact covariance_cross_batch|].
  split; [simpl; lra|].
  split; [exact ZCA_whiten_cross_batch|].
  split; [exact decomposition_cross_unit|].
  split; [exact E|].
  rewrite E. intros F.
  apply (f_equal (fun A => get2 A 0 0)) in F.
  unfold scale2 in F. rewrite !get2_tab2 in F by (unfold identity; dims; lia).
  rewrite get2_identity in F by lia. simpl in F.
  rewrite !Rmult_1_r in F.
  revert F. apply quotients_differ; lra.
Qed.

(* ================================================================== *)
(** ** The whitening of the patches *)

(** X14.  The whitening statement of the notebook fails exactly when
    [ZCA_whiten] fails, with the same exception (unpacking its result
    never fails); otherwise it yields [(X - M) . P] for the triple that
    [ZCA_whiten] returned, an array of the shape of the normalised batch
    [X]. *)
Theorem x_white_flat_outcome (solver : eigensolver) (h : hyper)
        (patches : ndarray) :
  match outcome (ZCA_whiten solver h patches) with
  | inl e => outcome (x_white_flat solver h patches) = inl e
  | inr r =>
      exists M P X,
        r = [M; P; X] /\
        outcome (x_white_flat solver h patches)
        = inr (dot (sub_row X M) P) /\
        shape (dot (sub_row X M) P) = shape X
  end.
Proof.
  unfold x_white_flat. rewrite outcome_bind.
  destruct (outcome (ZCA_whiten solver h patches)) as [e|r] eqn:Hr;
    [reflexivity|].
  destruct (ZCA_whiten_inv solver h patches r Hr)
    as (n & rest & X & _ & _ & HX & ->).
  eexists _, _, _. split; [reflexivity|]. split; [reflexivity|].
  destruct (returned_matrix_dims solver h patches _ _ _ Hr) as (_ & HP1).
  unfold dot at 1. unfold tab2 at 1. cbn [shape]. rewrite HP1.
  assert (shape X = [dim X 0; dim X 1]) as ->; [|reflexivity].
  rewrite (contrast_normalize_inv h (flat_batch patches n rest) X
             eq_refl HX).
  reflexivity.
Qed.

(* ================================================================== *)
(** ** The auto-encoder *)

Lemma logistic_scalar_range (u : R) : 0 <= logistic_scalar u <= 1.
Proof.
  unfold logistic_scalar. pose proof (exp_pos (- u)) as He.
  split.
  - left. apply Rdiv_lt_0_compat; lra.
  - apply (Rmult_le_reg_r (1 + exp (- u))); [lra|].
    unfold Rdiv. rewrite Rmult_assoc, Rinv_l by lra. lra.
Qed.

(** X16.  [logistic] keeps the shape of its argument and all its values
    lie between 0 and 1, bounds included. *)
Theorem logistic_range (u : ndarray) :
  shape (logistic u) = shape u /\
  length (data (logistic u)) = length (data u) /\
  Forall (fun y => 0 <= y <= 1) (data (logistic u)).
Proof.
  split; [reflexivity|]. split; [apply length_map|].
  unfold logistic. cbn [data]. apply Forall_forall. intros y Hy.
  apply in_map_iff in Hy. destruct Hy as (v & <- & _).
  apply logistic_scalar_range.
Qed.

Lemma get2_logistic_tab2 (n d : nat) (f : nat -> nat -> R) (i j : nat) :
  (i < n)%nat -> (j < d)%nat ->
  get2 (logistic (tab2 n d f)) i j = logistic_scalar (f i j).
Proof.
  intros Hi Hj. unfold get2, logistic, dim. cbn [shape data tab2 nth].
  rewrite (nth_indep _ 0 (logistic_scalar 0)).
  - rewrite map_nth. f_equal. apply (nth_flat_map_seq d f n 0 i j Hi Hj).
  - rewrite length_map, length_flat_map_seq. nia.
Qed.

Lemma get1_squared_distance (x z : ndarray) (i : nat) :
  (i < dim x 0)%nat ->
  get1 (squared_distance x z) i
  = rsum (dim x 1) (fun j => (get2 x i j - get2 z i j) ^ 2).
Proof.
  intros Hi. unfold squared_distance, sum_axis1, square2, sub2. dims.
  rewrite get1_tab1 by exact Hi. apply rsum_ext. intros j Hj.
  now rewrite !get2_tab2.
Qed.

(** X18.  For two batches of one shape, [squared_distance] gives one
    number per patch; it is not negative, it does not depend on the order
    of the two batches, and it is 0 when the two patches are equal. *)
Theorem squared_distance_metric (x z : ndarray) (n d i : nat) :
  shape x = [n; d] ->
  shape z = [n; d] ->
  (i < n)%nat ->
  shape (squared_distance x z) = [n] /\
  0 <= get1 (squared_distance x z) i /\
  get1 (squared_distance x z) i = get1 (squared_distance z x) i /\
  ((forall j, (j < d)%nat -> get2 x i j = get2 z i j) ->
   get1 (squared_distance x z) i = 0).
Proof.
  intros Hx Hz Hi.
  destruct (dim_of_shape x n d Hx) as (Hn & Hd & _).
  destruct (dim_of_shape z n d Hz) as (Hn' & Hd' & _).
  rewrite !get1_squared_distance by (rewrite ?Hn, ?Hn'; exact Hi).
  rewrite Hd, Hd'.
  split; [unfold squared_distance, sum_axis1, square2, sub2; dims;
          now rewrite Hn|].
  split; [apply rsum_nonneg; intros; apply pow2_ge_0|].
  split; [apply rsum_ext; intros; ring|].
  intros E. apply rsum_zero. intros j Hj. rewrite (E j Hj). ring.
Qed.

Lemma squared_distance_metric_witness :
  shape (squared_distance pair_a pair_b) = [2%nat] /\
  0 <= get1 (squared_distance pair_a pair_b) 0 /\
  get1 (squared_distance pair_a pair_b) 0
  = get1 (squared_distance pair_b pair_a) 0 /\
  ((forall j, (j < 2)%nat -> get2 pair_a 0 j = get2 pair_b 0 j) ->
   get1 (squared_distance pair_a pair_b) 0 = 0).
Proof.
  apply (squared_distance_metric pair_a pair_b 2 2 0).
  - reflexivity.
  - reflexivity.
  - lia.
Defined.

Lemma rsum_le (n : nat) (f g : nat -> R) :
  (forall k, (k < n)%nat -> f k <= g k) -> rsum n f <= rsum n g.
Proof.
  induction n as [|n IH]; intros L; simpl; [lra|].
  assert (rsum n f <= rsum n g) by (apply IH; intros; apply L; lia).
  assert (f n <= g n) by (apply L; lia). lra.
Qed.

Section TrainingCriterion.
Variables W b c x : ndarray.
Variables n v k : nat.
Hypothesis shape_x : shape x = [n; v].
Hypothesis shape_W : shape W = [v; k].
Hypothesis shape_b : shape b = [k].
Hypothesis shape_c : shape c = [v].
Hypothesis some_patch : (0 < n)%nat.

(** The reconstruction [z] of [training_criterion]. *)
Let z : ndarray :=
  logistic (add_row (dot (logistic (add_row (dot x W) b)) (transpose W)) c).

Lemma reconstruction_range (i j : nat) :
  (i < n)%nat -> (j < v)%nat -> 0 <= get2 z i j <= 1.
Proof.
  intros Hi Hj.
  destruct (dim_of_shape x n v shape_x) as (Hn & _ & _).
  destruct (dim_of_shape W v k shape_W) as (Hv & _ & _).
  assert (exists u, get2 z i j = logistic_scalar u) as [u ->];
    [|apply logistic_scalar_range].
  eexists. unfold z, add_row at 1. apply get2_logistic_tab2.
  - change (i < dim x 0)%nat. now rewrite Hn.
  - change (j < dim W 0)%nat. now rewrite Hv.
Qed.

Lemma training_criterion_sum :
  training_criterion W b c x
  = rsum n (fun i => rsum v (fun j => (get2 x i j - get2 z i j) ^ 2))
    / INR n.
Proof.
  destruct (dim_of_shape x n v shape_x) as (Hn & Hv & _).
  unfold training_criterion, mean1. fold z.
  change (dim (squared_distance x z) 0) with (dim x 0). rewrite Hn.
  f_equal. apply rsum_ext. intros i Hi.
  rewrite get1_squared_distance by (now rewrite Hn). now rewrite Hv.
Qed.

(** X19.  For a batch of N >= 1 patches and parameters of matching
    shapes, [training_criterion] is not negative, and it is at most the
    number of entries of a patch when the whole batch lies in [0, 1]. *)
Theorem training_criterion_bounds :
  0 <= training_criterion W b c x /\
  ((forall i j, (i < n)%nat -> (j < v)%nat -> 0 <= get2 x i j <= 1) ->
   training_criterion W b c x <= INR v).
Proof using shape_x shape_W shape_b shape_c some_patch.
  rewrite training_criterion_sum.
  assert (0 < INR n) as HN by (apply lt_0_INR; exact some_patch).
  assert (forall i, (i < n)%nat ->
                    0 <= rsum v (fun j => (get2 x i j - get2 z i j) ^ 2))
    as Hrow by (intros; apply rsum_nonneg; intros; apply pow2_ge_0).
  split.
  - apply Rmult_le_pos; [now apply rsum_nonneg|].
    left. now apply Rinv_0_lt_compat.
  - intros Hin.
    apply (Rmult_le_reg_r (INR n)); [exact HN|].
    unfold Rdiv. rewrite Rmult_assoc, Rinv_l, Rmult_1_r by lra.
    rewrite (Rmult_comm (INR v)), <- rsum_const.
    apply rsum_le. intros i Hi.
    rewrite <- (Rmult_1_r (INR v)), <- rsum_const.
    apply rsum_le. intros j Hj.
    pose proof (reconstruction_range i j Hi Hj).
    pose proof (Hin i j Hi Hj). nra.
Qed.
End TrainingCriterion.

Lemma training_criterion_bounds_witness :
  0 <= training_criterion W_zero b_zero c_zero patch_0_0 /\
  ((forall i j, (i < 1)%nat -> (j < 2)%nat ->
                0 <= get2 patch_0_0 i j <= 1) ->
   training_criterion W_zero b_zero c_zero patch_0_0 <= INR 2).
Proof.
  apply (training_criterion_bounds W_zero b_zero c_zero patch_0_0 1 2 1).
  - reflexivity.
  - reflexivity.
  - reflexivity.
  - reflexivity.
  - lia.
Defined.

(* ================================================================== *)
(** ** The display of the patches *)

Lemma get2_col_slice (X : ndarray) (a b i j : nat) :
  (i < dim X 0)%nat ->
  (j < Nat.min b (dim X 1) - Nat.min a (dim X 1))%nat ->
  get2 (col_slice X a b) i j = get2 X i (Nat.min a (dim X 1) + j).
Proof. intros Hi Hj. unfold col_slice. now rewrite get2_tab2. Qed.

(** X20.  The three channel slices that [show_flat_rgb] hands to
    [show_filters] partition the columns of the batch, in order: their
    widths add up to the number of columns and every entry of the batch
    is found in one slice, the first K columns in the first, the next K
    in the second, the others in the third (K = patch_W * patch_H).  When
    the batch has 3 K columns, each slice has K. *)
Theorem show_flat_rgb_partition
        (patch_H patch_W : nat) (X : ndarray) (grid_shp : nat * nat)
        (n D : nat) (Rc Gc Bc : ndarray) (shp grid : nat * nat) :
  shape X = [n; D] ->
  show_flat_rgb patch_H patch_W X grid_shp = ((Rc, Gc, Bc), shp, grid) ->
  let K := (patch_W * patch_H)%nat in
  (dim Rc 1 + dim Gc 1 + dim Bc 1 = D)%nat /\
  (forall i j, (i < n)%nat -> (j < D)%nat ->
               get2 X i j
               = if (j <? K)%nat then get2 Rc i j
                 else if (j <? 2 * K)%nat then get2 Gc i (j - K)
                      else get2 Bc i (j - 2 * K)) /\
  (D = (3 * K)%nat -> dim Rc 1 = K /\ dim Gc 1 = K /\ dim Bc 1 = K) /\
  shp = (patch_H, patch_W) /\ grid = grid_shp.
Proof.
  intros Hs Hcall K.
  destruct (dim_of_shape X n D Hs) as (Hn & HD & _).
  unfold show_flat_rgb in Hcall. fold K in Hcall.
  injection Hcall as <- <- <- <- <-.
  clearbody K.
  split; [unfold col_slice; dims; rewrite HD; lia|].
  split; [|split; [unfold col_slice; dims; rewrite HD; lia
                  | split; reflexivity]].
  intros i j Hi Hj.
  destruct (Nat.ltb_spec j K) as [HK|HK];
    [|destruct (Nat.ltb_spec j (2 * K)) as [H2K|H2K]];
    rewrite get2_col_slice by (rewrite ?Hn, ?HD; lia);
    rewrite HD; f_equal; lia.
Qed.

Lemma show_flat_rgb_partition_witness :
  (dim (col_slice pixel_rgb 0 1) 1 + dim (col_slice pixel_rgb 1 2) 1
   + dim (col_slice pixel_rgb 2 3) 1 = 3)%nat /\
  (forall i j, (i < 1)%nat -> (j < 3)%nat ->
               get2 pixel_rgb i j
               = if (j <? 1 * 1)%nat then get2 (col_slice pixel_rgb 0 1) i j
                 else if (j <? 2 * (1 * 1))%nat
                      then get2 (col_slice pixel_rgb 1 2) i (j - 1 * 1)
                      else get2 (col_slice pixel_rgb 2 3) i
                                (j - 2 * (1 * 1))) /\
  (3%nat = (3 * (1 * 1))%nat ->
   dim (col_slice pixel_rgb 0 1) 1 = (1 * 1)%nat /\
   dim (col_slice pixel_rgb 1 2) 1 = (1 * 1)%nat /\
   dim (col_slice pixel_rgb 2 3) 1 = (1 * 1)%nat) /\
  (1%nat, 1%nat) = (1%nat, 1%nat) /\ (10%nat, 10%nat) = (10%nat, 10%nat).
Proof.
  apply (show_flat_rgb_partition 1 1 pixel_rgb (10%nat, 10%nat) 1 3
           (col_slice pixel_rgb 0 1) (col_slice pixel_rgb 1 2)
           (col_slice pixel_rgb 2 3) (1%nat, 1%nat) (10%nat, 10%nat)).
  - reflexivity.
  - reflexivity.
Defined.

(* ================================================================== *)
(** ** contrast_normalize works patch by patch *)

(** X21.  [contrast_normalize] never mixes patches: two batches of one
    shape that agree on patch [i] are normalised to outputs that agree on
    row [i], whatever their other patches are. *)
Theorem contrast_normalize_row_local
        (h : hyper) (X X' Y Y' : ndarray) (n d i : nat) :
  shape X = [n; d] ->
  shape X' = [n; d] ->
  (i < n)%nat ->
  (forall j, (j < d)%nat -> get2 X' i j = get2 X i j) ->
  outcome (contrast_normalize h X) = inr Y ->
  outcome (contrast_normalize h X') = inr Y' ->
  forall j, (j < d)%nat -> get2 Y' i j = get2 Y i j.
Proof.
  intros Hs Hs' Hi Hrow HY HY' j Hj.
  destruct (dim_of_shape X n d Hs) as (Hn & Hd & H2).
  destruct (dim_of_shape X' n d Hs') as (Hn' & Hd' & H2').
  rewrite (contrast_normalize_inv h X Y H2 HY).
  rewrite (contrast_normalize_inv h X' Y' H2' HY').
  rewrite !get2_normalize_spec by (rewrite ?Hn, ?Hd, ?Hn', ?Hd'; assumption).
  assert (forall l, (l < d)%nat -> centered h X' i l = centered h X i l)
    as Hc.
  { intros l Hl.
    rewrite (centered_scaled h X X' d i 1 Hd Hd') by
      (try exact Hl; intros l' Hl'; rewrite (Hrow l' Hl'); ring).
    ring. }
  rewrite (Hc j Hj). do 2 f_equal.
  unfold denominator, norm2. rewrite Hd, Hd'.
  rewrite (rsum_ext d (fun l => centered h X' i l * centered h X' i l)
             (fun l => centered h X i l * centered h X i l))
    by (intros l Hl; now rewrite (Hc l Hl)).
  reflexivity.
Qed.

Lemma contrast_normalize_row_local_witness :
  get2 (normalize_spec hyper_soft pair_b) 0 1
  = get2 (normalize_spec hyper_soft pair_a) 0 1.
Proof.
  apply (contrast_normalize_row_local hyper_soft pair_a pair_b _ _ 2 2 0);
    [| | | | | |lia].
  - reflexivity.
  - reflexivity.
  - lia.
  - intros j Hj. destruct j as [|[|j]]; [reflexivity | reflexivity | lia].
  - apply contrast_normalize_returns;
      [reflexivity | right; unfold dim; simpl; lia].
  - apply contrast_normalize_returns;
      [reflexivity | right; unfold dim; simpl; lia].
Defined.

(* ================================================================== *)
(** ** ZCA_whiten: diagnostics *)

Lemma trace_bind {A B : Type} (m : py A) (k : A -> py B) :
  trace (bind m k)
  = match outcome m with
    | inl _ => trace m
    | inr a => trace m ++ trace (k a)
    end.
Proof.
  destruct m as [t [e|a]]; simpl; [reflexivity|].
  destruct (k a); reflexivity.
Qed.

(** X22.  When [ZCA_whiten] returns, its diagnostics are those of
    [contrast_normalize] on the flattened batch, followed by the four
    progress lines and the eigenspectrum figure in the order of the
    source: the first shape printed is that of the normalised batch, the
    second is D x D, and the plot holds the D eigenvalues that the
    eigensolver returned. *)
Theorem ZCA_whiten_diagnostics (solver : eigensolver) (h : hyper)
        (patches M P X : ndarray) (n : nat) (rest : list nat) :
  shape patches = n :: rest ->
  outcome (ZCA_whiten solver h patches) = inr [M; P; X] ->
  trace (ZCA_whiten solver h patches)
  = trace (contrast_normalize h (flat_batch patches n rest))
    ++ [Print "patch_whitening_filterbank_X starting ZCA" None;
        Print "patch_whitening_filterbank_X starting ZCA: dot"
              (Some (shape X));
        Print "patch_whitening_filterbank_X starting ZCA: eigh" None;
        Figure;
        Plot (data (fst (eigh solver (covariance X))));
        Title "Eigenspectrum of image patches";
        Print "patch_whitening_filterbank_X starting ZCA: dot"
              (Some [dim X 1; dim X 1])] /\
  length (data (fst (eigh solver (covariance X)))) = dim X 1.
Proof.
  intros Hs Hr.
  destruct (ZCA_whiten_inv solver h patches _ Hr)
    as (n' & rest' & X' & Hs' & Hn & HX & E).
  rewrite Hs in Hs'. injection Hs' as <- <-. injection E as _ _ <-.
  pose proof (contrast_normalize_inv h (flat_batch patches n rest) X
                eq_refl HX) as EX.
  split.
  - unfold ZCA_whiten, len, astype_float64. rewrite Hs.
    rewrite trace_bind. cbn [ret outcome snd trace fst app].
    rewrite (reshape_rows_flat patches n rest Hs Hn).
    rewrite trace_bind. cbn [ret outcome snd trace fst app].
    rewrite trace_bind, HX. f_equal.
    assert (shape_eqb (shape (sub_row X (mean_and_std X))) (shape X) = true)
      as Hshape by (rewrite EX; simpl; now rewrite !Nat.eqb_refl).
    assert (shape (sub_row X (mean_and_std X)) = shape X) as Hsame
      by (rewrite EX; reflexivity).
    rewrite Hshape, Hsame.
    assert (dim (sub_row X (mean_and_std X)) 0 = dim X 0) as ->
      by reflexivity.
    fold (covariance X).
    unfold eigh. destruct (solver (dim (covariance X) 0) (get2 (covariance X)))
      as [lam V].
    reflexivity.
  - unfold eigh.
    destruct (solver (dim (covariance X) 0) (get2 (covariance X)))
      as [lam V].
    cbn [fst tab1 data]. rewrite length_map, length_seq. reflexivity.
Qed.

Lemma ZCA_whiten_diagnostics_witness :
  trace (ZCA_whiten diagonal_solver hyper_hard patches_unit)
  = trace (contrast_normalize hyper_hard (flat_batch patches_unit 3 [1%nat]))
    ++ [Print "patch_whitening_filterbank_X starting ZCA" None;
        Print "patch_whitening_filterbank_X starting ZCA: dot"
              (Some (shape patches_unit));
        Print "patch_whitening_filterbank_X starting ZCA: eigh" None;
        Figure;
        Plot (data (fst (eigh diagonal_solver (covariance patches_unit))));
        Title "Eigenspectrum of image patches";
        Print "patch_whitening_filterbank_X starting ZCA: dot"
              (Some [dim patches_unit 1; dim patches_unit 1])] /\
  length (data (fst (eigh diagonal_solver (covariance patches_unit))))
  = dim patches_unit 1.
Proof.
  apply (ZCA_whiten_diagnostics diagonal_solver hyper_hard patches_unit
           (mean_and_std patches_unit) whitening_unit patches_unit
           3 [1%nat]).
  - reflexivity.
  - exact ZCA_whiten_patches_unit.
Defined.

(* ================================================================== *)
(** * What float64 makes of the exact identities *)

(** The theorems above that equate or strictly compare computed values
    hold in exact arithmetic.  The program computes in binary64; the runs
    below are those of [Binary64]. *)

Section Rounding.
Import PrimFloat.
Local Open Scope float_scope.

(** C3, as stated, fails in float64: under hard thresholding at
    [beta = 1] the patch (5, 12), of squared norm 169, is normalised to a
    row whose squared norm is not 1: numpy's [(Y * Y).sum(axis=1)] gives
    1 + 2^-52, and the exact sum of the squares of the two floats is
    above 1 as well. *)
Lemma hard_beta_unit_norm_binary64 :
  Binary64.hard_beta Binary64.hyper_hard = true /\
  (0 <? Binary64.beta Binary64.hyper_hard) = true /\
  (Binary64.beta Binary64.hyper_hard
   <=? Binary64.row_norm2 Binary64.patch_5_12 0) = true /\
  exists Y,
    Binary64.outcome
      (Binary64.contrast_normalize Binary64.hyper_hard Binary64.patch_5_12)
    = inr Y /\
    Binary64.row_norm2 Y 0 = 1 + 0x1p-52 /\
    (Binary64.row_norm2 Y 0 =? 1) = false /\
    Binary64.exact_row_norm2_vs_1 Y 0 = Some Gt.
Proof.
  split; [reflexivity|]. split; [reflexivity|]. split; [reflexivity|].
  eexists. split; [vm_compute; reflexivity|].
  split; [vm_compute; reflexivity|].
  split; vm_compute; reflexivity.
Qed.

(** C10, as stated, fails in float64 on the same patch: the squared norm
    of the output row exceeds 1, as numpy computes it and exactly. *)
Lemma normalized_rows_bounded_binary64 :
  (0 <? Binary64.beta Binary64.hyper_hard) = true /\
  exists Y,
    Binary64.outcome
      (Binary64.contrast_normalize Binary64.hyper_hard Binary64.patch_5_12)
    = inr Y /\
    (1 <? Binary64.row_norm2 Y 0) = true /\
    Binary64.exact_row_norm2_vs_1 Y 0 = Some Gt.
Proof.
  split; [reflexivity|].
  eexists. split; [vm_compute; reflexivity|].
  split; vm_compute; reflexivity.
Qed.

(** In float64 the two thresholding rules can give the very same row
    although its squared norm is not 0: at [beta = 10] the patch
    (3e8, 4e8) has [l2 + beta = l2]. *)
Lemma thresholding_absorbed_binary64 :
  (0 <? Binary64.beta Binary64.hyper_hard_10) = true /\
  Binary64.beta Binary64.hyper_soft_10 = Binary64.beta Binary64.hyper_hard_10 /\
  (0 <? Binary64.row_norm2 Binary64.patch_3e8_4e8 0) = true /\
  exists Yh Ys,
    Binary64.outcome
      (Binary64.contrast_normalize Binary64.hyper_hard_10
                                   Binary64.patch_3e8_4e8) = inr Yh /\
    Binary64.outcome
      (Binary64.contrast_normalize Binary64.hyper_soft_10
                                   Binary64.patch_3e8_4e8) = inr Ys /\
    Yh = Ys.
Proof.
  split; [reflexivity|]. split; [reflexivity|]. split; [reflexivity|].
  eexists _, _. split; [vm_compute; reflexivity|].
  split; vm_compute; reflexivity.
Qed.

(** C2, as stated, fails in float64: with the eigenvectors (-4/5, 3/5)
    and (3/5, 4/5) and the eigenvalues 1/6 and 2/3 for the four patches of
    [rotation_batch], the matrix that [ZCA_whiten] returns has
    [P[0, 1] <> P[1, 0]]. *)
Lemma whitening_matrix_asymmetric_binary64 :
  (0 <? Binary64.gamma Binary64.hyper_hard) = true /\
  exists M P X,
    Binary64.outcome
      (Binary64.ZCA_whiten Binary64.rotation_solver Binary64.hyper_hard
                           Binary64.rotation_batch)
    = inr [M; P; X] /\
    (Binary64.get2 P 0 1 =? Binary64.get2 P 1 0) = false /\
    (Binary64.get2 P 1 0 <? Binary64.get2 P 0 1) = false /\
    (Binary64.get2 P 0 1 <? Binary64.get2 P 1 0) = true.
Proof.
  split; [reflexivity|].
  eexists _, _, _. split; [vm_compute; reflexivity|].
  split; [|split]; vm_compute; reflexivity.
Qed.

(** The run of [ZCA_whiten] in float64 on [cross_batch], whose sample
    covariance is the identity: the matrix returned is not
    (1 / sqrt(1 + gamma)) I. *)
Lemma whitening_cross_binary64 :
  Binary64.data (Binary64.covariance Binary64.cross_batch) = [1; 0; 0; 1] /\
  exists M P X,
    Binary64.outcome
      (Binary64.ZCA_whiten Binary64.diagonal_solver Binary64.hyper_hard
                           Binary64.cross_batch)
    = inr [M; P; X] /\
    (1 / sqrt (1 + Binary64.gamma Binary64.hyper_hard)
     <? Binary64.get2 P 0 0) = true.
Proof.
  split; [vm_compute; reflexivity|].
  eexists _, _, _. split; [vm_compute; reflexivity|].
  vm_compute; reflexivity.
Qed.
End Rounding.
